(** * Logger: an asynchronous, multi-destination log sink

  Shallow embedding of [src/Logger/Logger.h] and [src/Logger/Logger.cpp]
  and the properties claimed for them.

  - [std::string] is a sequence of [char]: [list ascii].
  - [int], [size_t]: [Z] and [nat]; no string of the program comes near
    the wrap-around of [size_t].
  - [std::ofstream] is modelled as far as the program uses it: the file
    it is associated with, its error state, its buffer and its position.
  - the file system is modelled as far as [init] and the stream use it:
    the files and what they hold, the directories that exist and those
    that can be made, and the paths that may be written.
  - a call that leaves by an exception gives the state it leaves behind,
    marked as thrown.
  - the worker thread, the producers and the destructor are the
    transitions of one interleaving step relation.  A critical section
    under [queueMutex] is one transition; so are each read of [exitFlag]
    by the worker, each call of [notify_one] and each of the two first
    lines of the destructor, which run without the mutex.  The test of
    the level in [log] is taken together with the critical section that
    follows it, and a call of [writeLog] is one transition. *)

From Stdlib Require Import ZArith Ascii String List Lia Bool DecimalString.
From Stdlib Require DecimalNat.
From stdpp Require Import gmap strings list fin_maps.

Abbreviation str := (list ascii).
Coercion list_ascii_of_string : string >-> list.

#[local] Open Scope string_scope.
#[local] Open Scope list_scope.
#[local] Open Scope nat_scope.

(** ** The operations of [std::string] the program calls *)

Module StdString.

(** [s.compare(0, p.size(), p) == 0] *)
Fixpoint starts_with (p s : str) : bool :=
  match p, s with
  | [], _ => true
  | _ :: _, [] => false
  | a :: p', b :: s' => Ascii.eqb a b && starts_with p' s'
  end.

(** [s.find(from)]: the lowest index at which [from] occurs. *)
Fixpoint find0 (s from : str) : option nat :=
  if starts_with from s then Some 0
  else match s with
       | [] => None
       | _ :: s' => S <$> find0 s' from
       end.

(** [s.find(from, pos)]; [None] is [npos]. *)
Definition find (s from : str) (pos : nat) : option nat :=
  if (pos <=? length s) then Nat.add pos <$> find0 (drop pos s) from else None.

(** [s.replace(pos, len, to)], for [pos <= s.size()]. *)
Definition replace (s : str) (pos len : nat) (to : str) : str :=
  take pos s ++ to ++ drop (pos + len) s.

(** [s.rfind(c)]: the highest index of the character [c]. *)
Fixpoint rfind (s : str) (c : ascii) : option nat :=
  match s with
  | [] => None
  | a :: s' =>
      match rfind s' c with
      | Some i => Some (S i)
      | None => if Ascii.eqb a c then Some 0 else None
      end
  end.

(** [s.substr(pos)] and [s.substr(0, n)] *)
Definition substr_from (s : str) (pos : nat) : str := drop pos s.
Definition substr_to (s : str) (n : nat) : str := take n s.

(** [std::to_string(int)] *)
Definition to_string (n : Z) : str := NilZero.string_of_int (Z.to_int n).

End StdString.
Import StdString.

(** ** Data model ([Logger.h]) *)

Inductive LogLevel := TRACE | DEBUG | INFO | WARNING | ERROR_ | CRITICAL.

(** The enumerators' values; [<] on [LogLevel] compares them. *)
Definition level_value (l : LogLevel) : Z :=
match l with
| TRACE => 0 | DEBUG => 1 | INFO => 2 | WARNING => 3 | ERROR_ => 4 | CRITICAL => 5
end.

Definition level_lt (a b : LogLevel) : bool := (level_value a <? level_value b)%Z.

Inductive OutputTarget := Console | File | Both.

Definition target_value (t : OutputTarget) : Z :=
match t with
| Console => 1 | File => 2 | Both => Z.lor 1 2
end.

Record LogMessage := mkLogMessage {
level : LogLevel;
message : str;
file : str;
line : Z;
timestamp : str
}.

(** ** Formatter *)

(** [Logger::levelToString]; the [default] label of the switch is for
    values outside the enumeration. *)
Definition levelToString (l : LogLevel) : str :=
match l with
| TRACE => "TRACE"
| DEBUG => "DEBUG"
| INFO => "INFO"
| WARNING => "WARNING"
| ERROR_ => "ERROR"
| CRITICAL => "CRITICAL"
end.

(** The loop of the [replaceAll] lambda.  One unit of fuel is one
  evaluation of the loop condition; [None] means the fuel ran out with
  the loop still running. *)
Fixpoint replaceAll_loop (fuel : nat) (from to s : str) (start_pos : nat)
: option str :=
match fuel with
| 0 => None
| S fuel' =>
    match find s from start_pos with
    | None => Some s
    | Some p =>
        replaceAll_loop fuel' from to
          (replace s p (length from) to) (p + length to)
    end
end.

(** [formatLogMessage], each pass with the given fuel. *)
Definition formatLogMessage_fuel (fuel : nat) (formatTemplate : str)
(msg : LogMessage) : option str :=
s1 ← replaceAll_loop fuel "{t}" (timestamp msg) formatTemplate 0;
s2 ← replaceAll_loop fuel "{L}" (levelToString (level msg)) s1 0;
s3 ← replaceAll_loop fuel "{f}" (file msg) s2 0;
s4 ← replaceAll_loop fuel "{l}" (to_string (line msg)) s3 0;
replaceAll_loop fuel "{m}" (message msg) s4 0.

(** [replaceAll] as a total function: [S (length s)] evaluations of the
  loop condition are enough whenever [from] is not empty
  ([replaceAll_loop_enough] below), which is the case at each of the five
  calls.  For an empty [from] the loop of the source does not end. *)
Definition replaceAll (s from to : str) : str :=
default s (replaceAll_loop (S (length s)) from to s 0).

Definition formatLogMessage (formatTemplate : str) (msg : LogMessage) : str :=
let formatted := formatTemplate in
let formatted := replaceAll formatted "{t}" (timestamp msg) in
let formatted := replaceAll formatted "{L}" (levelToString (level msg)) in
let formatted := replaceAll formatted "{f}" (file msg) in
let formatted := replaceAll formatted "{l}" (to_string (line msg)) in
let formatted := replaceAll formatted "{m}" (message msg) in
formatted.

(** The five placeholders, in the order of the passes. *)
Definition placeholders : list str := ["{t}" : str; "{L}" : str; "{f}" : str; "{l}" : str; "{m}" : str].

Definition default_template : str := "{t} | {L} | {f}:{l} -> {m}".

(** ** Timestamps

    [getTimestamp] and the constructor read the clock and print the local
    time with [std::put_time]; the time read, broken down by
    [localtime_s], is the input here. *)

Record tm := mkTm {
  tm_year : nat;  (* years since 1900 *)
  tm_mon : nat;   (* 0 .. 11 *)
  tm_mday : nat;
  tm_hour : nat;
  tm_min : nat;
  tm_sec : nat
}.

Definition digit (n : nat) : ascii := ascii_of_nat (48 + n mod 10).

(** [%m], [%d], [%H], [%M], [%S]: two digits, zero padded. *)
Definition two_digits (n : nat) : str := [digit (n / 10); digit n].

(** [%Y]: the year in decimal. *)
Definition decimal (n : nat) : str := NilZero.string_of_uint (Nat.to_uint n).

(** [put_time(&timeInfo, "%Y-%m-%d %H:%M:%S")] and, with the other two
    separators, [put_time(&timeInfo, "%Y-%m-%d_%H-%M-%S")]. *)
Definition put_time (sep_date sep_time : str) (t : tm) : str :=
  decimal (1900 + tm_year t) ++ "-" ++ two_digits (tm_mon t + 1) ++ "-"
  ++ two_digits (tm_mday t) ++ sep_date
  ++ two_digits (tm_hour t) ++ sep_time ++ two_digits (tm_min t) ++ sep_time
  ++ two_digits (tm_sec t).

Definition getTimestamp (now : tm) : str := put_time " " ":" now.

(** The value the constructor stores in [startupTime]. *)
Definition startup_stamp (now : tm) : str := put_time "_" "-" now.

(** The characters numbers and timestamps are printed with. *)
Definition numeric (c : ascii) : bool :=
  bool_decide (c ∈ (("0123456789-: _" : str) : list ascii)).

(** ** The console and the files

    [std::wcout] receives whole lines; a line is kept as the value
    printed, before [utf8_to_wstring] recodes it for the console. *)

Inductive ConsoleLine :=
| ConsoleOutput (output : str)   (* "[Console] " << output *)
| FileWriting (path : str)       (* the line announcing a write to logFilePath *)
| FileWritten (bytes : nat)      (* the line giving output.size() *)
| FileNotOpen.                   (* the line saying that the file is not open *)

(** What the program sees of its environment.  [disk] holds the regular
    files and their content, [directories] the directories that exist,
    each under the name the program gives it.  [creatable] says which
    directories [create_directories] can make, [writable] at which paths
    access for writing is granted.  [append_at_end] is the choice the C
    library makes for the initial position of a stream opened for
    appending: at the end of the file (glibc), or at the start of the file
    until the first write (the Microsoft runtime); the language leaves it
    to the implementation. *)
Record World := mkWorld {
  disk : gmap str str;
  directories : gset str;
  creatable : str → bool;
  writable : str → bool;
  append_at_end : bool;
  console : list ConsoleLine
}.

Definition set_disk (d : gmap str str) (w : World) : World :=
  mkWorld d (directories w) (creatable w) (writable w) (append_at_end w)
    (console w).

Definition set_directories (ds : gset str) (w : World) : World :=
  mkWorld (disk w) ds (creatable w) (writable w) (append_at_end w) (console w).

Definition print (l : ConsoleLine) (w : World) : World :=
  mkWorld (disk w) (directories w) (creatable w) (writable w) (append_at_end w)
    (console w ++ [l]).

Definition content (w : World) (path : str) : str := default [] (disk w !! path).

(** ** [std::filesystem]

    A directory separator; the program is written for Windows, where both
    characters separate. *)
Definition is_separator (c : ascii) : bool :=
  Ascii.eqb c "/" || Ascii.eqb c "\".

(** [s] without the characters at its start that satisfy [p]. *)
Fixpoint skip (p : ascii → bool) (s : str) : str :=
  match s with
  | [] => []
  | c :: s' => if p c then skip p s' else s
  end.

(** [path(filePath).parent_path()], for a path without a root name (no
    drive, no server): the path without its last component and without
    the separators in front of that component; the separators at the
    start of the path, its root directory, stay. *)
Definition parent_path (filePath : str) : str :=
  let relative := skip is_separator filePath in
  let root := take (length filePath - length relative) filePath in
  root
  ++ reverse (skip is_separator
                (skip (λ c, negb (is_separator c)) (reverse relative))).

(** [std::filesystem::exists(p)]: there is a directory or a file of that
    name.  A name whose status cannot be told, for which [exists] throws,
    counts as a directory that is absent and cannot be made: the
    exception then comes one line later and leaves [init] the same way. *)
Definition fs_exists (p : str) (w : World) : bool :=
  bool_decide (p ∈ directories w) || bool_decide (is_Some (disk w !! p)).

(** [std::filesystem::create_directories(dir)] for a directory that does
    not exist; [None] stands for the [filesystem_error] it throws when the
    directory cannot be made.  The directories made on the way to [dir]
    are not recorded. *)
Definition create_directories (dir : str) (w : World) : option World :=
  if creatable w dir then Some (set_directories ({[dir]} ∪ directories w) w)
  else None.

(** Whether a file can be opened for writing at [path]: it lies in the
    current directory or in a directory that exists, [path] is not the
    name of a directory, and access is granted. *)
Definition can_open (w : World) (path : str) : bool :=
  (bool_decide (parent_path path = [])
   || bool_decide (parent_path path ∈ directories w))
  && negb (bool_decide (path ∈ directories w))
  && writable w path.

(** ** [std::ofstream] *)

Record ofstream := mkOfstream {
  fs_file : option str;  (* the file the stream is associated with *)
  fs_app : bool;         (* opened with [std::ios::app] *)
  fs_fail : bool;        (* [failbit] or [badbit] is set *)
  fs_buffer : str;       (* characters put and not yet written to the file *)
  fs_fresh : bool        (* no character was put since the file was opened *)
}.

Definition closed_stream : ofstream := mkOfstream None false false [] true.

Definition is_open (s : ofstream) : bool := bool_decide (is_Some (fs_file s)).

Definition setstate_fail (s : ofstream) : ofstream :=
  mkOfstream (fs_file s) (fs_app s) true (fs_buffer s) (fs_fresh s).

(** [s.open(path, mode)], [mode] being [out] or [out | app].  The stream
    buffer refuses to open when it is open already, and the stream then
    sets [failbit]; on success the error state is cleared.  [out] alone
    truncates the file. *)
Definition ofstream_open (s : ofstream) (w : World) (path : str) (app : bool)
  : ofstream * World :=
  if is_open s then (setstate_fail s, w)
  else if can_open w path then
    let old := if app then content w path else [] in
    (mkOfstream (Some path) app false [] true, set_disk (<[path := old]> (disk w)) w)
  else (setstate_fail s, w).

(** [s.tellp()]: [-1] in an error state or without a file. *)
Definition tellp (s : ofstream) (w : World) : Z :=
  match fs_file s with
  | Some path =>
      if fs_fail s then (-1)%Z
      else if fs_app s && fs_fresh s && negb (append_at_end w) then 0%Z
      else Z.of_nat (length (content w path) + length (fs_buffer s))
  | None => (-1)%Z
  end.

(** [s.write(data, n)] and [s << data]: nothing is put in an error state;
    without a file the put fails. *)
Definition ofstream_write (s : ofstream) (data : str) : ofstream :=
  if fs_fail s then s
  else match fs_file s with
       | Some path => mkOfstream (Some path) (fs_app s) false (fs_buffer s ++ data) false
       | None => setstate_fail s
       end.

(** [s.flush()]: in an error state nothing happens; otherwise the buffer
    is written behind what the file holds. *)
Definition ofstream_flush (s : ofstream) (w : World) : ofstream * World :=
  if fs_fail s then (s, w)
  else match fs_file s with
       | Some path =>
           (mkOfstream (Some path) (fs_app s) false [] (fs_fresh s),
            set_disk (<[path := content w path ++ fs_buffer s]> (disk w)) w)
       | None => (s, w)
       end.

(** The line terminator ['\n'], as it is put on the stream. *)
Definition newline : str := ["010"%char].

(** [s << std::endl] *)
Definition endl (s : ofstream) (w : World) : ofstream * World :=
  ofstream_flush (ofstream_write s newline) w.

(** [s.close()]: the buffer is written out whatever the error state. *)
Definition ofstream_close (s : ofstream) (w : World) : ofstream * World :=
  match fs_file s with
  | Some path =>
      (mkOfstream None (fs_app s) (fs_fail s) [] (fs_fresh s),
       set_disk (<[path := content w path ++ fs_buffer s]> (disk w)) w)
  | None => (setstate_fail s, w)
  end.

(** ** The logger *)

Record Logger := mkLogger {
  currentLevel : LogLevel;
  outputTarget : OutputTarget;
  logFileStream : ofstream;
  startupTime : str;
  logFilePath : str;
  messageQueue : list LogMessage;  (* the front is the head *)
  exitFlag : bool;
  formatTemplate : str
}.

Definition set_currentLevel (l : LogLevel) (lg : Logger) : Logger :=
  mkLogger l (outputTarget lg) (logFileStream lg) (startupTime lg)
    (logFilePath lg) (messageQueue lg) (exitFlag lg) (formatTemplate lg).

Definition set_outputTarget (t : OutputTarget) (lg : Logger) : Logger :=
  mkLogger (currentLevel lg) t (logFileStream lg) (startupTime lg)
    (logFilePath lg) (messageQueue lg) (exitFlag lg) (formatTemplate lg).

Definition set_logFileStream (s : ofstream) (lg : Logger) : Logger :=
  mkLogger (currentLevel lg) (outputTarget lg) s (startupTime lg)
    (logFilePath lg) (messageQueue lg) (exitFlag lg) (formatTemplate lg).

Definition set_logFilePath (p : str) (lg : Logger) : Logger :=
  mkLogger (currentLevel lg) (outputTarget lg) (logFileStream lg)
    (startupTime lg) p (messageQueue lg) (exitFlag lg) (formatTemplate lg).

Definition set_messageQueue (q : list LogMessage) (lg : Logger) : Logger :=
  mkLogger (currentLevel lg) (outputTarget lg) (logFileStream lg)
    (startupTime lg) (logFilePath lg) q (exitFlag lg) (formatTemplate lg).

Definition set_exitFlag (b : bool) (lg : Logger) : Logger :=
  mkLogger (currentLevel lg) (outputTarget lg) (logFileStream lg)
    (startupTime lg) (logFilePath lg) (messageQueue lg) b (formatTemplate lg).

Definition set_formatTemplate (t : str) (lg : Logger) : Logger :=
  mkLogger (currentLevel lg) (outputTarget lg) (logFileStream lg)
    (startupTime lg) (logFilePath lg) (messageQueue lg) (exitFlag lg) t.

(** [Logger::Logger()], the worker thread apart: the default member
    initialisers and the startup time. *)
Definition Logger_new (now : tm) : Logger :=
  mkLogger TRACE Console closed_stream (startup_stamp now) [] [] false
    default_template.

(** The byte-order mark [{ 0xEF, 0xBB, 0xBF }]. *)
Definition bom : str := ["239"; "187"; "191"]%char.

(** Lines 84-97 of [Logger::init]: the path of the file to open. *)
Definition effective_path (startupTime filePath : str)
  (addTimestampSuffix : bool) : str :=
  if addTimestampSuffix then
    match rfind filePath "." with
    | Some dot =>
        substr_to filePath dot ++ "_" ++ startupTime ++ substr_from filePath dot
    | None => filePath ++ "_" ++ startupTime
    end
  else filePath.

(** Lines 77-82 of [Logger::init]: the directory of the requested path is
    made when the path names one and it does not exist.  [None]:
    [create_directories] throws. *)
Definition ensure_directory (filePath : str) (w : World) : option World :=
  let dir := parent_path filePath in
  if negb (bool_decide (dir = [])) && negb (fs_exists dir w)
  then create_directories dir w
  else Some w.

(** How a call of [init] ends: it returns, or it is left by the
    [std::filesystem::filesystem_error] thrown in line 81, which unlocks
    [queueMutex] on its way out.  Either way the logger and the
    environment are as the call leaves them. *)
Inductive Result :=
| Returns (lg : Logger) (w : World)
| Throws (lg : Logger) (w : World).

Definition logger_of (r : Result) : Logger :=
  match r with
  | Returns lg _ | Throws lg _ => lg
  end.

Definition world_of (r : Result) : World :=
  match r with
  | Returns _ w | Throws _ w => w
  end.

Definition throws (r : Result) : bool :=
  match r with
  | Returns _ _ => false
  | Throws _ _ => true
  end.

(** [Logger::init] *)
Definition init (level : LogLevel) (filePath : str)
  (append addTimestampSuffix : bool) (lg : Logger) (w : World) : Result :=
  let lg := set_currentLevel level lg in
  match ensure_directory filePath w with
  | None => Throws lg w
  | Some w =>
      let lg :=
        set_logFilePath
          (effective_path (startupTime lg) filePath addTimestampSuffix) lg in
      let '(s, w) := ofstream_open (logFileStream lg) w (logFilePath lg) append in
      let s :=
        if is_open s && (tellp s w =? 0)%Z then ofstream_write s bom else s in
      Returns (set_logFileStream s lg) w
  end.

Definition setLogLevel (level : LogLevel) (lg : Logger) : Logger :=
  set_currentLevel level lg.

Definition setOutputTarget (target : OutputTarget) (lg : Logger) : Logger :=
  set_outputTarget target lg.

Definition setFormatTemplate (formatTemplate : str) (lg : Logger) : Logger :=
  set_formatTemplate formatTemplate lg.

(** The critical section of [Logger::enqueueLog]. *)
Definition enqueueLog (msg : LogMessage) (lg : Logger) : Logger :=
  set_messageQueue (messageQueue lg ++ [msg]) lg.

(** [Logger::log]; [now] is the time [getTimestamp] reads. *)
Definition log (now : tm) (level : LogLevel) (message file : str) (line : Z)
  (lg : Logger) : Logger :=
  if level_lt level (currentLevel lg) then lg
  else enqueueLog (mkLogMessage level message file line (getTimestamp now)) lg.

Definition has_bit (target : OutputTarget) (bit : OutputTarget) : bool :=
  negb (Z.land (target_value target) (target_value bit) =? 0)%Z.

(** [Logger::writeLog] *)
Definition writeLog (msg : LogMessage) (lg : Logger) (w : World)
  : Logger * World :=
  let output := formatLogMessage (formatTemplate lg) msg in
  let w := if has_bit (outputTarget lg) Console
           then print (ConsoleOutput output) w else w in
  if has_bit (outputTarget lg) File then
    if is_open (logFileStream lg) then
      let w := print (FileWriting (logFilePath lg)) w in
      let w := print (FileWritten (length output)) w in
      let s := ofstream_write (logFileStream lg) output in
      let '(s, w) := endl s w in
      let '(s, w) := ofstream_flush s w in
      (set_logFileStream s lg, w)
    else (lg, print FileNotOpen w)
  else (lg, w).

(** ** The threads

    Where the worker thread stands in [Logger::workerFunc].  Between two
    transitions [queueMutex] is held by the worker or by nobody, as every
    other critical section is a single transition.  The predicate of the
    wait is evaluated with the mutex held, and the mutex is released as
    the worker begins to wait. *)
Inductive WorkerPC :=
| AtLoopTest                  (* line 258, about to read exitFlag *)
| AtLock                      (* line 259, about to lock *)
| AtWait                      (* line 260, lock held, about to evaluate the predicate *)
| AboutToBlock                (* line 260, lock held, predicate found false *)
| Blocked                     (* line 260, waiting, lock released *)
| Woken                       (* line 260, notified, about to lock again *)
| AtInnerTest                 (* line 262, lock held *)
| Writing (msg : LogMessage)  (* line 267, lock released; the call is one transition *)
| AtRelock                    (* line 269 *)
| AtFinalLock                 (* line 274 *)
| FinalDrain                  (* line 275, lock held *)
| Exited.                     (* [workerFunc] has returned *)

Definition holds_lock (pc : WorkerPC) : bool :=
  match pc with
  | AtWait | AboutToBlock | AtInnerTest | FinalDrain => true
  | _ => false
  end.

(** The message the worker has popped and not yet written. *)
Definition in_flight (pc : WorkerPC) : list LogMessage :=
  match pc with
  | Writing msg => [msg]
  | _ => []
  end.

(** Where the owner of the logger stands: before the destructor, after
    line 55, after line 56, after line 63. *)
Inductive OwnerPC := Live | Signalled | Joining | Destroyed.

(** Line 55 has been executed. *)
Definition signalled (o : OwnerPC) : bool :=
  match o with
  | Live => false
  | _ => true
  end.

(** The state of the whole program.  [notifying] counts the producers
    that have left the critical section of [enqueueLog] and have not yet
    called [cv.notify_one()], line 223.  The last three fields are
    history: the messages pushed on the queue, the messages [writeLog] was
    called with, and the messages that had been pushed when [exitFlag] was
    set. *)
Record System := mkSystem {
  logger : Logger;
  world : World;
  worker : WorkerPC;
  owner : OwnerPC;
  notifying : nat;
  pushed : list LogMessage;
  handled : list LogMessage;
  pushed_at_signal : list LogMessage
}.

(** The calls of public member functions by the producer threads. *)
Inductive Call :=
| CallInit (level : LogLevel) (filePath : str) (append addTimestampSuffix : bool)
| CallSetLogLevel (level : LogLevel)
| CallSetOutputTarget (target : OutputTarget)
| CallSetFormatTemplate (formatTemplate : str)
| CallLog (now : tm) (level : LogLevel) (message file : str) (line : Z).

Inductive Label :=
| Api (c : Call)   (* a producer runs a member function; of [log], up to line 222 *)
| ProducerNotify   (* a producer runs line 223 *)
| WorkerStep       (* the worker runs to its next lock operation or access *)
| SpuriousWake     (* the condition variable wakes the worker unasked *)
| DtorSignal       (* line 55 *)
| DtorNotify       (* line 56 *)
| DtorJoinClose.   (* lines 57-63 *)

(** [cv.notify_one()] and [cv.notify_all()]: there is one waiter at most,
    and a notification that finds nobody waiting is lost. *)
Definition notify (pc : WorkerPC) : WorkerPC :=
  match pc with
  | Blocked => Woken
  | _ => pc
  end.

Definition initial (now : tm) (w : World) : System :=
  mkSystem (Logger_new now) w AtLoopTest Live 0 [] [] [].

Definition with_logger (lg : Logger) (s : System) : System :=
  mkSystem lg (world s) (worker s) (owner s) (notifying s) (pushed s)
    (handled s) (pushed_at_signal s).

Definition with_worker (pc : WorkerPC) (s : System) : System :=
  mkSystem (logger s) (world s) pc (owner s) (notifying s) (pushed s)
    (handled s) (pushed_at_signal s).

(** The worker calls [writeLog(msg)]. *)
Definition do_write (msg : LogMessage) (s : System) : System :=
  let '(lg, w) := writeLog msg (logger s) (world s) in
  mkSystem lg w (worker s) (owner s) (notifying s) (pushed s)
    (handled s ++ [msg]) (pushed_at_signal s).

(** The critical section of a member function: it begins when
    [queueMutex] is free.  An exception that leaves [init] is the
    caller's to handle; the logger stays as [init] left it.  Of [log] this
    is the part up to line 222: the message is pushed, and the producer
    has [notify_one] still to call. *)
Definition locked_call (c : Call) (s : System) : option System :=
  if holds_lock (worker s) then None
  else match c with
       | CallInit level filePath append suffix =>
           let r := init level filePath append suffix (logger s) (world s) in
           Some (mkSystem (logger_of r) (world_of r) (worker s) (owner s)
                   (notifying s) (pushed s) (handled s) (pushed_at_signal s))
       | CallSetLogLevel level => Some (with_logger (setLogLevel level (logger s)) s)
       | CallSetOutputTarget target =>
           Some (with_logger (setOutputTarget target (logger s)) s)
       | CallSetFormatTemplate t =>
           Some (with_logger (setFormatTemplate t (logger s)) s)
       | CallLog now level message file line =>
           let msg := mkLogMessage level message file line (getTimestamp now) in
           Some (mkSystem (enqueueLog msg (logger s)) (world s) (worker s)
                   (owner s) (S (notifying s)) (pushed s ++ [msg]) (handled s)
                   (pushed_at_signal s))
       end.

(** A call of a member function.  [log] returns at line 202, before it
    locks, when the level is below the minimum.  The level is read there
    without the mutex; a call that goes on is taken to read it as its
    critical section begins. *)
Definition call (c : Call) (s : System) : option System :=
  match c with
  | CallLog now level message file line =>
      if level_lt level (currentLevel (logger s)) then Some s
      else locked_call c s
  | _ => locked_call c s
  end.

(** One transition of the worker thread. *)
Definition worker_step (s : System) : option System :=
  match worker s with
  | AtLoopTest =>
      Some (with_worker (if exitFlag (logger s) then AtFinalLock else AtLock) s)
  | AtLock => Some (with_worker AtWait s)
  | AtWait =>
      if negb (bool_decide (messageQueue (logger s) = [])) || exitFlag (logger s)
      then Some (with_worker AtInnerTest s)
      else Some (with_worker AboutToBlock s)
  | AboutToBlock => Some (with_worker Blocked s)
  | Blocked => None
  | Woken => Some (with_worker AtWait s)
  | AtInnerTest =>
      match messageQueue (logger s) with
      | [] => Some (with_worker AtLoopTest s)
      | msg :: q =>
          Some (with_worker (Writing msg)
                  (with_logger (set_messageQueue q (logger s)) s))
      end
  | Writing msg => Some (with_worker AtRelock (do_write msg s))
  | AtRelock => Some (with_worker AtInnerTest s)
  | AtFinalLock => Some (with_worker FinalDrain s)
  | FinalDrain =>
      match messageQueue (logger s) with
      | [] => Some (with_worker Exited s)
      | msg :: q =>
          let s := do_write msg s in
          Some (with_logger (set_messageQueue q (logger s)) s)
      end
  | Exited => None
  end.

(** One transition of the program. *)
Definition exec (l : Label) (s : System) : option System :=
  match l with
  | Api c =>
      match owner s with
      | Destroyed => None
      | _ => call c s
      end
  | ProducerNotify =>
      match owner s, notifying s with
      | Destroyed, _ => None
      | _, 0 => None
      | _, S n =>
          Some (mkSystem (logger s) (world s) (notify (worker s)) (owner s) n
                  (pushed s) (handled s) (pushed_at_signal s))
      end
  | WorkerStep => worker_step s
  | SpuriousWake =>
      match worker s with
      | Blocked => Some (with_worker Woken s)
      | _ => None
      end
  | DtorSignal =>
      match owner s with
      | Live =>
          Some (mkSystem (set_exitFlag true (logger s)) (world s) (worker s)
                  Signalled (notifying s) (pushed s) (handled s) (pushed s))
      | _ => None
      end
  | DtorNotify =>
      match owner s with
      | Signalled =>
          Some (mkSystem (logger s) (world s) (notify (worker s)) Joining
                  (notifying s) (pushed s) (handled s) (pushed_at_signal s))
      | _ => None
      end
  | DtorJoinClose =>
      match owner s, worker s with
      | Joining, Exited =>
          let '(st, w) :=
            if is_open (logFileStream (logger s))
            then ofstream_close (logFileStream (logger s)) (world s)
            else (logFileStream (logger s), world s) in
          Some (mkSystem (set_logFileStream st (logger s)) w Exited Destroyed
                  (notifying s) (pushed s) (handled s) (pushed_at_signal s))
      | _, _ => None
      end
  end.

(** A run: the transitions of a list of labels, one after the other. *)
Fixpoint run (ls : list Label) (s : System) : option System :=
  match ls with
  | [] => Some s
  | l :: ls' => s' ← exec l s; run ls' s'
  end.

Inductive reachable (now : tm) (w : World) : System → Prop :=
| reachable_initial : reachable now w (initial now w)
| reachable_step s l s' :
    reachable now w s → exec l s = Some s' → reachable now w s'.

(** What holds in every state of every run. *)
Record invariant (s : System) : Prop := mkInvariant {
  inv_queue :
    pushed s = handled s ++ in_flight (worker s) ++ messageQueue (logger s);
  inv_flag : exitFlag (logger s) = signalled (owner s);
  inv_signal :
    signalled (owner s) = true → pushed_at_signal s `prefix_of` pushed s;
  inv_final :
    worker s = AtFinalLock ∨ worker s = FinalDrain ∨ worker s = Exited →
    exitFlag (logger s) = true;
  inv_exit : worker s = Exited → pushed_at_signal s `prefix_of` handled s;
  inv_predicate : worker s = AboutToBlock → messageQueue (logger s) = [];
  inv_waiting :
    worker s = Blocked → length (messageQueue (logger s)) ≤ notifying s;
  inv_destroyed : owner s = Destroyed → worker s = Exited;
  inv_buffer :
    fs_buffer (logFileStream (logger s)) = []
    ∨ fs_buffer (logFileStream (logger s)) = bom
}.

(** ** The rendering the specification describes

    One scan of the template from left to right: a placeholder is replaced
    by its value, which is not scanned; any other character is copied. *)

Definition placeholder_value (msg : LogMessage) (x : ascii) : option str :=
  if Ascii.eqb x "t" then Some (timestamp msg)
  else if Ascii.eqb x "L" then Some (levelToString (level msg))
  else if Ascii.eqb x "f" then Some (file msg)
  else if Ascii.eqb x "l" then Some (to_string (line msg))
  else if Ascii.eqb x "m" then Some (message msg)
  else None.

(** The scan, for any assignment of values to placeholder letters. *)
Fixpoint render (σ : ascii → option str) (tmpl : str) : str :=
  match tmpl with
  | [] => []
  | c :: rest =>
      match rest with
      | x :: y :: rest' =>
          match (if Ascii.eqb c "{" && Ascii.eqb y "}" then σ x else None) with
          | Some v => v ++ render σ rest'
          | None => c :: render σ rest
          end
      | _ => c :: render σ rest
      end
  end.

Definition render_spec (tmpl : str) (msg : LogMessage) : str :=
  render (placeholder_value msg) tmpl.

(** The assignment [σ] with the letter [k] given the value [v]. *)
Definition extend (k : ascii) (v : str) (σ : ascii → option str)
  : ascii → option str :=
  λ x, if Ascii.eqb x k then Some v else σ x.

(** The placeholder of the letter [k]. *)
Definition placeholder (k : ascii) : str := ["{"%char; k; "}"%char].

(** A value that later passes cannot take for part of a placeholder: it
    holds no brace, is not empty and is not one of the letters [later]
    alone. *)
Definition inert (later : str) (v : str) : bool :=
  forallb (λ c, negb (Ascii.eqb c "{") && negb (Ascii.eqb c "}")) v
  && negb (bool_decide (v = []))
  && forallb (λ x, negb (bool_decide (v = [x]))) later.

(** ** The file name the specification describes

    The suffix goes before the extension of the file name, the last
    component of the path, and at the end when the file name has none. *)

(** The length of the directory part: one past the last separator. *)
Fixpoint directory_length (path : str) : nat :=
  match path with
  | [] => 0
  | c :: path' =>
      if existsb is_separator path then S (directory_length path') else 0
  end.

Definition spec_effective_path (startupTime filePath : str)
  (addTimestampSuffix : bool) : str :=
  if addTimestampSuffix then
    let directory := take (directory_length filePath) filePath in
    let name := drop (directory_length filePath) filePath in
    match rfind name "." with
    | Some dot =>
        directory ++ take dot name ++ "_" ++ startupTime ++ drop dot name
    | None => filePath ++ "_" ++ startupTime
    end
  else filePath.

(** ** Sample values *)

(** 2024-01-01 12:00:00 *)
Definition noon : tm := mkTm 124 0 1 12 0 0.

(** No file and no directory yet; every directory can be made and every
    path may be written. *)
Definition empty_world : World := mkWorld ∅ ∅ (λ _, true) (λ _, true) true [].

Definition sample_message : LogMessage :=
  mkLogMessage DEBUG "x" "f.cpp" 1 (getTimestamp noon).

(** The file a.log exists and has content. *)
Definition world_with_log : World :=
  mkWorld {[ ("a.log" : str) := ("old line" : str) ]} ∅ (λ _, true) (λ _, true)
    true [].

(** The same under the Microsoft runtime. *)
Definition microsoft_world_with_log : World :=
  mkWorld {[ ("a.log" : str) := ("old line" : str) ]} ∅ (λ _, true) (λ _, true)
    false [].

(** A run in the manner of [main.cpp]: the log goes to a file, [init] is
    called for a.log and then for b.log, a message is logged and written
    by the worker, and the logger is destroyed. *)
Definition reinit_run : list Label :=
  [Api (CallSetOutputTarget File);
   Api (CallInit TRACE "a.log" true false);
   Api (CallInit DEBUG "b.log" true false);
   Api (CallLog noon DEBUG "x" "f.cpp" 1); ProducerNotify;
   WorkerStep; WorkerStep; WorkerStep; WorkerStep; WorkerStep; WorkerStep;
   DtorSignal; DtorNotify;
   WorkerStep; WorkerStep; WorkerStep; WorkerStep;
   DtorJoinClose].

(** A run in which the worker evaluates the predicate of its wait, the
    destructor then sets the flag and notifies, and the worker goes to
    wait. *)
Definition missed_wakeup_run : list Label :=
  [WorkerStep; WorkerStep; WorkerStep; DtorSignal; DtorNotify; WorkerStep].

(** The state at the end of [reinit_run]. *)
Definition reinit_final : System :=
  default (initial noon empty_world) (run reinit_run (initial noon empty_world)).

(** ** The final sweep as a function

    Lines 275-278: [writeLog] for the front of the queue, then [pop], as
    long as the queue is not empty. *)

Fixpoint drain_queue (q : list LogMessage) (lg : Logger) (w : World)
  : Logger * World :=
  match q with
  | [] => (lg, w)
  | msg :: q' =>
      let '(lg1, w1) := writeLog msg lg w in
      drain_queue q' (set_messageQueue q' lg1) w1
  end.

Definition final_drain (lg : Logger) (w : World) : Logger * World :=
  drain_queue (messageQueue lg) lg w.

(** What the file holds once the stream is flushed: its content and the
    buffer of the stream. *)
Definition pending_content (lg : Logger) (w : World) (path : str) : str :=
  content w path ++ fs_buffer (logFileStream lg).

(** The line [writeLog] makes of a message. *)
Definition log_line (tmpl : str) (msg : LogMessage) : str :=
  formatLogMessage tmpl msg ++ newline.

(** A time as [localtime_s] gives it, in a year up to 9999. *)
Definition calendar_time (t : tm) : Prop :=
  (Z.of_nat (tm_year t) + 1900 < 10000)%Z ∧ tm_mon t < 12 ∧ tm_mday t < 32
  ∧ tm_hour t < 24 ∧ tm_min t < 60 ∧ tm_sec t < 62.

(** ** More sample values *)

(** The worker has found the predicate of its wait false. *)
Definition about_to_block : System :=
  default (initial noon empty_world)
    (run [WorkerStep; WorkerStep; WorkerStep] (initial noon empty_world)).

(** Two messages are queued and the destructor has set the flag; the
    worker has not run yet. *)
Definition signalled_with_queue : System :=
  default (initial noon empty_world)
    (run [Api (CallLog noon INFO "one" "f.cpp" 1); ProducerNotify;
          Api (CallLog noon ERROR_ "two" "f.cpp" 2); ProducerNotify;
          DtorSignal]
       (initial noon empty_world)).

(** [init] was called for a.log and then for b.log; the target is the
    file. *)
Definition after_second_init : System :=
  default (initial noon empty_world)
    (run [Api (CallSetOutputTarget File);
          Api (CallInit TRACE "a.log" true false);
          Api (CallInit DEBUG "b.log" true false)]
       (initial noon empty_world)).

(** The worker has returned and the destructor is about to join it and
    to close the file: [reinit_run] without its last transition. *)
Definition before_close : System :=
  default (initial noon empty_world)
    (run (take 17 reinit_run) (initial noon empty_world)).

(** A logger with the file a.log open and two messages in its queue,
    and the files it sees. *)
Definition queued_logger : Logger :=
  logger_of
    (init TRACE "a.log" true false
       (log noon ERROR_ "two" "f.cpp" 2
          (log noon INFO "one" "f.cpp" 1
             (set_outputTarget File (Logger_new noon))))
       empty_world).

Definition queued_world : World :=
  world_of
    (init TRACE "a.log" true false
       (log noon ERROR_ "two" "f.cpp" 2
          (log noon INFO "one" "f.cpp" 1
             (set_outputTarget File (Logger_new noon))))
       empty_world).

(** After the second [init] a message is logged and the worker writes
    it. *)
Definition lost_message_run : list Label :=
  [Api (CallLog noon DEBUG "x" "f.cpp" 1); ProducerNotify;
   WorkerStep; WorkerStep; WorkerStep; WorkerStep; WorkerStep].

Definition after_lost_message : System :=
  default after_second_init (run lost_message_run after_second_init).

(** No path may be written. *)
Definition read_only_world : World :=
  mkWorld ∅ ∅ (λ _, true) (λ _, false) true [].


(** ** What a run writes *)




(** The calls of [init]. *)
Definition calls_init (l : Label) : bool :=
  match l with
  | Api (CallInit _ _ _ _) => true
  | _ => false
  end.

(** A transition of the worker or of a producer on its way out of
    [enqueueLog]. *)
Definition delivering (l : Label) : bool :=
  match l with
  | WorkerStep | ProducerNotify => true
  | _ => false
  end.

(** ** Sample runs *)





(** The destructor sets the flag and notifies, the worker runs until it
    returns, and a message is logged afterwards. *)
Definition late_message_run : list Label :=
  [DtorSignal; DtorNotify; WorkerStep; WorkerStep; WorkerStep;
   Api (CallLog noon DEBUG "x" "f.cpp" 1); ProducerNotify].

Definition after_late_message : System :=
  default (initial noon empty_world)
    (run late_message_run (initial noon empty_world)).

(** Three messages are logged while the worker waits; none of the
    producers has notified yet. *)
Definition three_queued : System :=
  default (initial noon empty_world)
    (run [WorkerStep; WorkerStep; WorkerStep; WorkerStep;
          Api (CallLog noon INFO "one" "f.cpp" 1);
          Api (CallLog noon ERROR_ "two" "f.cpp" 2);
          Api (CallLog noon DEBUG "three" "g.cpp" 3)]
       (initial noon empty_world)).

(** ** Facts about [find] and [replaceAll] *)

Section StringFacts.

Lemma starts_with_app p r : starts_with p (p ++ r) = true.
Proof.
  induction p as [|a p IH]; simpl; [done|].
  by rewrite Ascii.eqb_refl, IH.
Qed.

Lemma starts_with_inv p s :
  starts_with p s = true → s = p ++ drop (length p) s.
Proof.
  revert s; induction p as [|a p IH]; intros [|b s]; simpl; try done.
  intros [Hab Hps]%andb_true_iff.
  apply Ascii.eqb_eq in Hab as ->. f_equal. by apply IH.
Qed.

Lemma starts_with_head c p s :
  starts_with (c :: p) s = true → ∃ s', s = c :: s'.
Proof.
  destruct s as [|b s]; simpl; [done|].
  intros [Hab _]%andb_true_iff. apply Ascii.eqb_eq in Hab as ->. eauto.
Qed.

Lemma find0_Some s from i :
  find0 s from = Some i →
  i + length from ≤ length s ∧ s = take i s ++ from ++ drop (i + length from) s.
Proof.
  revert i; induction s as [|b s IH]; intros i; simpl.
  - destruct (starts_with from []) eqn:E; [|done].
    intros [= <-]. apply starts_with_inv in E.
    destruct from; simpl in *; [done|discriminate].
  - destruct (starts_with from (b :: s)) eqn:E.
    + intros [= <-]. apply starts_with_inv in E. split; [|exact E].
      apply (f_equal length) in E. rewrite length_app in E. cbn [length] in E. lia.
    + destruct (find0 s from) as [j|] eqn:Ej; [|done].
      intros [= <-]. destruct (IH j eq_refl) as [Hle Heq].
      simpl. split; [lia|]. by rewrite <- Heq.
Qed.

(** An occurrence cannot start inside a prefix that lacks the first
    character of the searched string. *)
Lemma find0_skip c from a s :
  c ∉ a → find0 (a ++ s) (c :: from) = Nat.add (length a) <$> find0 s (c :: from).
Proof.
  intros Hc. induction a as [|b a IH].
  - simpl. by destruct (find0 s (c :: from)).
  - apply not_elem_of_cons in Hc as [Hcb Hca].
    change ((b :: a) ++ s) with (b :: (a ++ s)).
    cbn [find0]. destruct (starts_with (c :: from) (b :: a ++ s)) eqn:E.
    + apply starts_with_head in E as [s' [= <- _]]. done.
    + rewrite IH by done. by destruct (find0 s (c :: from)).
Qed.

Lemma occurrence_shift (x y from : str) i :
  y = take i y ++ from ++ drop (i + length from) y →
  x ++ y = take (length x + i) (x ++ y) ++ from
           ++ drop (length x + i + length from) (x ++ y).
Proof.
  intros Hy.
  rewrite take_app_add, <- Nat.add_assoc, drop_app_add, <- app_assoc.
  by f_equal.
Qed.

Lemma find_Some s from pos p :
  find s from pos = Some p →
  pos ≤ p ∧ p + length from ≤ length s ∧
  s = take p s ++ from ++ drop (p + length from) s.
Proof.
  unfold find. destruct (pos <=? length s) eqn:Hpos; [|done].
  apply Nat.leb_le in Hpos.
  destruct (find0 (drop pos s) from) as [i|] eqn:Ei; [|done].
  intros [= <-]. apply find0_Some in Ei as [Hle Heq].
  rewrite length_drop in Hle. split; [lia|]. split; [lia|].
  assert (Hx : length (take pos s) = pos) by (rewrite length_take; lia).
  pose proof (occurrence_shift (take pos s) _ _ _ Heq) as H.
  by rewrite take_drop, Hx in H.
Qed.

(** Searching beyond a prefix ignores the prefix. *)
Lemma find_shift x y from k :
  find (x ++ y) from (length x + k) = Nat.add (length x) <$> find y from k.
Proof.
  unfold find. rewrite length_app, drop_app_add.
  destruct (k <=? length y) eqn:Hk.
  - apply Nat.leb_le in Hk.
    replace (length x + k <=? length x + length y) with true
      by (symmetry; apply Nat.leb_le; lia).
    destruct (find0 (drop k y) from); simpl; f_equal; lia.
  - apply Nat.leb_gt in Hk.
    replace (length x + k <=? length x + length y) with false
      by (symmetry; apply Nat.leb_gt; lia).
    done.
Qed.

Lemma replace_shift x y p n to :
  replace (x ++ y) (length x + p) n to = x ++ replace y p n to.
Proof.
  unfold replace. rewrite take_app_add, <- Nat.add_assoc, drop_app_add.
  by rewrite <- app_assoc.
Qed.

Lemma replaceAll_loop_shift fuel from to x y k :
  replaceAll_loop fuel from to (x ++ y) (length x + k)
  = app x <$> replaceAll_loop fuel from to y k.
Proof.
  revert y k; induction fuel as [|fuel IH]; intros y k; simpl; [done|].
  rewrite find_shift. destruct (find y from k) as [p|]; simpl; [|done].
  rewrite replace_shift, <- Nat.add_assoc. apply IH.
Qed.

(** The distance from the search position to the end of the string
    shrinks with every replacement, so the loop ends. *)
Lemma replaceAll_loop_enough fuel from to s start :
  from ≠ [] → length s - start < fuel →
  is_Some (replaceAll_loop fuel from to s start).
Proof.
  intros Hne. revert s start; induction fuel as [|fuel IH];
    intros s start Hfuel; [lia|]. simpl.
  destruct (find s from start) as [p|] eqn:Hp; [|by eexists].
  apply find_Some in Hp as (Hsp & Hlen & _).
  apply IH. unfold replace.
  rewrite !length_app, length_take, length_drop.
  destruct from; [done|]. simpl in *. lia.
Qed.

Lemma replaceAll_loop_mono fuel fuel' from to s start r :
  replaceAll_loop fuel from to s start = Some r → fuel ≤ fuel' →
  replaceAll_loop fuel' from to s start = Some r.
Proof.
  revert fuel' s start; induction fuel as [|fuel IH];
    intros fuel' s start; simpl; [done|].
  intros Hr Hle. destruct fuel' as [|fuel']; [lia|]. simpl.
  destruct (find s from start); [|done]. apply (IH fuel'); [done|lia].
Qed.

(** Any sufficient fuel computes [replaceAll]. *)
Lemma replaceAll_loop_total fuel from to s :
  from ≠ [] → length s < fuel →
  replaceAll_loop fuel from to s 0 = Some (replaceAll s from to).
Proof.
  intros Hne Hfuel. unfold replaceAll.
  destruct (replaceAll_loop_enough (S (length s)) from to s 0 Hne) as [r Hr];
    [lia|].
  rewrite Hr. simpl. eapply replaceAll_loop_mono; [done|lia].
Qed.

Lemma replaceAll_absent s from to :
  find s from 0 = None → replaceAll s from to = s.
Proof. intros H. unfold replaceAll. simpl. by rewrite H. Qed.

(** One pass, unfolded at the first occurrence: the text before it is
    kept, the replacement is copied, and the pass goes on in the text
    behind the occurrence; the copied replacement is not searched. *)
Lemma replaceAll_first s from to p :
  from ≠ [] → find s from 0 = Some p →
  replaceAll s from to
  = take p s ++ to ++ replaceAll (drop (p + length from) s) from to.
Proof.
  intros Hne Hp. pose proof (find_Some _ _ _ _ Hp) as (_ & Hlen & _).
  unfold replaceAll at 1. simpl. rewrite Hp. unfold replace.
  rewrite (app_assoc (take p s)).
  replace (p + length to) with (length (take p s ++ to) + 0)
    by (rewrite length_app, length_take; lia).
  rewrite replaceAll_loop_shift, replaceAll_loop_total; [|done|].
  - simpl. by rewrite <- app_assoc.
  - rewrite length_drop. destruct from; [done|]. simpl in *. lia.
Qed.

Lemma find0_here from r : find0 (from ++ r) from = Some 0.
Proof.
  pose proof (starts_with_app from r) as H.
  destruct (from ++ r); simpl; by rewrite H.
Qed.

Lemma replaceAll_here from to r :
  from ≠ [] → replaceAll (from ++ r) from to = to ++ replaceAll r from to.
Proof.
  intros Hne. rewrite (replaceAll_first _ _ _ 0); [|done|].
  - simpl. by rewrite drop_app_length.
  - unfold find. simpl. change (drop 0 ?l) with l. by rewrite find0_here.
Qed.

(** A prefix without the first character of [from] is stepped over. *)
Lemma replaceAll_skip c from to a s :
  c ∉ a → replaceAll (a ++ s) (c :: from) to = a ++ replaceAll s (c :: from) to.
Proof.
  intros Hc. assert (Hne : c :: from ≠ []) by done.
  assert (Hf : find (a ++ s) (c :: from) 0
               = Nat.add (length a) <$> find s (c :: from) 0).
  { unfold find. simpl. change (drop 0 ?l) with l.
    rewrite find0_skip by done. by destruct (find0 s (c :: from)). }
  destruct (find s (c :: from) 0) as [p|] eqn:Hp; simpl in Hf.
  - pose proof (find_Some _ _ _ _ Hp) as (_ & Hlen & _).
    rewrite (replaceAll_first _ _ _ _ Hne Hf), (replaceAll_first _ _ _ _ Hne Hp).
    rewrite take_app_add, <- Nat.add_assoc, drop_app_add.
    by rewrite <- app_assoc.
  - by rewrite !replaceAll_absent.
Qed.

End StringFacts.

Section PrintedNumbers.

Lemma digit_numeric n : numeric (digit n) = true.
Proof.
  unfold digit. pose proof (Nat.mod_upper_bound n 10 ltac:(lia)) as H.
  generalize dependent (n mod 10). intros k Hk.
  do 10 (destruct k as [|k]; [by vm_compute|]). lia.
Qed.

Lemma string_of_uint_numeric d :
  Forall (λ c, numeric c = true) (NilEmpty.string_of_uint d : str).
Proof. induction d; simpl; constructor; by try vm_compute. Qed.

Lemma NilZero_uint_numeric d :
  Forall (λ c, numeric c = true) (NilZero.string_of_uint d : str).
Proof.
  destruct d; try apply string_of_uint_numeric.
  simpl. constructor; [by vm_compute|constructor].
Qed.

Lemma to_string_numeric n : Forall (λ c, numeric c = true) (to_string n).
Proof.
  unfold to_string, NilZero.string_of_int.
  destruct (Z.to_int n) as [d|d]; [apply NilZero_uint_numeric|].
  simpl. constructor; [by vm_compute|apply NilZero_uint_numeric].
Qed.

Lemma NilZero_uint_nonempty d : (NilZero.string_of_uint d : str) ≠ [].
Proof. by destruct d. Qed.

Lemma to_string_nonempty n : to_string n ≠ [].
Proof.
  unfold to_string, NilZero.string_of_int.
  destruct (Z.to_int n) as [d|d]; [apply NilZero_uint_nonempty|done].
Qed.

Lemma put_time_numeric sd st t :
  Forall (λ c, numeric c = true) sd → Forall (λ c, numeric c = true) st →
  Forall (λ c, numeric c = true) (put_time sd st t).
Proof.
  intros Hsd Hst. unfold put_time, decimal, two_digits.
  repeat (apply Forall_app; split); try done;
    try apply NilZero_uint_numeric;
    repeat constructor; try apply digit_numeric; by vm_compute.
Qed.

Lemma getTimestamp_numeric now :
  Forall (λ c, numeric c = true) (getTimestamp now).
Proof. apply put_time_numeric; repeat constructor; by vm_compute. Qed.

Lemma numeric_not_in (c : ascii) (v : str) :
  numeric c = false → Forall (λ c, numeric c = true) v → c ∉ v.
Proof.
  intros Hc Hv Hin. rewrite Forall_forall in Hv.
  specialize (Hv c Hin). congruence.
Qed.

End PrintedNumbers.

(** ** The formatter: the default template and termination *)

(** Evaluates a pass over the closed string behind a prefix. *)
Ltac eval_pass :=
  match goal with
  | |- context [_ ++ replaceAll ?r ?f ?t] =>
      let x := eval vm_compute in (replaceAll r f t) in
      change (replaceAll r f t) with x
  end.

Lemma default_template_rendering (T : str) :
  "{"%char ∉ T →
  formatLogMessage default_template (mkLogMessage INFO "hello" "a.cpp" 10 T)
  = T ++ " | INFO | a.cpp:10 -> hello".
Proof.
  intros HT. unfold formatLogMessage, default_template.
  cbn [timestamp level file line message levelToString].
  change ("{t} | {L} | {f}:{l} -> {m}" : str)
    with (("{t}" : str) ++ (" | {L} | {f}:{l} -> {m}" : str)).
  rewrite replaceAll_here by done.
  rewrite (replaceAll_absent _ _ T) by reflexivity.
  change ("{L}" : str) with ("{"%char :: ("L}" : str)).
  rewrite replaceAll_skip by done. eval_pass.
  change ("{f}" : str) with ("{"%char :: ("f}" : str)).
  rewrite replaceAll_skip by done. eval_pass.
  change ("{l}" : str) with ("{"%char :: ("l}" : str)).
  rewrite replaceAll_skip by done. eval_pass.
  change ("{m}" : str) with ("{"%char :: ("m}" : str)).
  rewrite replaceAll_skip by done. eval_pass.
  reflexivity.
Qed.

(** C6: the default template, rendered for a message of level INFO from
    a.cpp, line 10, with the text hello, whose timestamp T is the one
    [getTimestamp] produced at any time, is "T | INFO | a.cpp:10 -> hello". *)
Theorem default_template_round_trip (now : tm) :
  formatLogMessage "{t} | {L} | {f}:{l} -> {m}"
    (mkLogMessage INFO "hello" "a.cpp" 10 (getTimestamp now))
  = getTimestamp now ++ " | INFO | a.cpp:10 -> hello".
Proof.
  apply default_template_rendering.
  apply numeric_not_in; [by vm_compute|apply getTimestamp_numeric].
Qed.

Lemma placeholder_nonempty ph : ph ∈ placeholders → ph ≠ [] ∧ length ph = 3.
Proof.
  unfold placeholders. rewrite !elem_of_cons, elem_of_nil.
  intros [->|[->|[->|[->|[->|[]]]]]]; by split.
Qed.

(** One iteration of the loop of [replaceAll]: the search position ends up
    right behind the copied replacement, what lies behind it is what lay
    behind the occurrence, and less of the string is left to search. *)
Lemma replaceAll_iteration (from to s : str) (start p : nat) :
  from ≠ [] → find s from start = Some p →
  take (p + length to) (replace s p (length from) to) = take p s ++ to
  ∧ drop (p + length to) (replace s p (length from) to)
    = drop (p + length from) s
  ∧ length (replace s p (length from) to) - (p + length to) < length s - start.
Proof.
  intros Hne Hp. apply find_Some in Hp as (Hsp & Hlen & _).
  assert (Hpre : length (take p s ++ to) = p + length to)
    by (rewrite length_app, length_take; lia).
  unfold replace. rewrite (app_assoc (take p s)), <- Hpre.
  rewrite take_app_length, drop_app_length. split; [done|]. split; [done|].
  rewrite !length_app, length_take, length_drop.
  destruct from; [done|]. simpl in *. lia.
Qed.

Lemma formatLogMessage_fuel_total (fuel : nat) (tmpl : str) (msg : LogMessage) :
  let s1 := replaceAll tmpl "{t}" (timestamp msg) in
  let s2 := replaceAll s1 "{L}" (levelToString (level msg)) in
  let s3 := replaceAll s2 "{f}" (file msg) in
  let s4 := replaceAll s3 "{l}" (to_string (line msg)) in
  length tmpl < fuel → length s1 < fuel → length s2 < fuel →
  length s3 < fuel → length s4 < fuel →
  formatLogMessage_fuel fuel tmpl msg = Some (formatLogMessage tmpl msg).
Proof.
  intros s1 s2 s3 s4 H0 H1 H2 H3 H4.
  unfold formatLogMessage_fuel, formatLogMessage.
  rewrite (replaceAll_loop_total fuel "{t}" _ tmpl) by done.
  cbn [mbind option_bind].
  rewrite (replaceAll_loop_total fuel "{L}" _ s1) by done.
  cbn [mbind option_bind].
  rewrite (replaceAll_loop_total fuel "{f}" _ s2) by done.
  cbn [mbind option_bind].
  rewrite (replaceAll_loop_total fuel "{l}" _ s3) by done.
  cbn [mbind option_bind].
  by rewrite (replaceAll_loop_total fuel "{m}" _ s4) by done.
Qed.

Lemma formatLogMessage_fuel_enough (tmpl : str) (msg : LogMessage) :
  ∃ fuel, formatLogMessage_fuel fuel tmpl msg = Some (formatLogMessage tmpl msg).
Proof.
  pose (s1 := replaceAll tmpl "{t}" (timestamp msg)).
  pose (s2 := replaceAll s1 "{L}" (levelToString (level msg))).
  pose (s3 := replaceAll s2 "{f}" (file msg)).
  pose (s4 := replaceAll s3 "{l}" (to_string (line msg))).
  exists (S (length tmpl + length s1 + length s2 + length s3 + length s4)).
  apply formatLogMessage_fuel_total; fold s1 s2 s3 s4; lia.
Qed.

(** C10: [formatLogMessage] terminates on every template and every
    message: some number of loop iterations suffices for the five passes
    and yields the rendering.  In each iteration of a pass the search
    position moves right behind the replacement just copied, so that the
    replacement is not searched, and the part of the string left to search
    gets shorter, whatever the replacement contains. *)
Theorem formatLogMessage_terminates (tmpl : str) (msg : LogMessage) :
  (∃ fuel, formatLogMessage_fuel fuel tmpl msg = Some (formatLogMessage tmpl msg))
  ∧ (∀ (ph to s : str) (start p : nat),
        ph ∈ placeholders → find s ph start = Some p →
        take (p + length to) (replace s p (length ph) to) = take p s ++ to
        ∧ drop (p + length to) (replace s p (length ph) to)
          = drop (p + length ph) s
        ∧ length (replace s p (length ph) to) - (p + length to)
          < length s - start).
Proof.
  split; [apply formatLogMessage_fuel_enough|].
  intros ph to s start p Hph Hp.
  apply replaceAll_iteration; [|done]. by apply placeholder_nonempty.
Qed.

(** The message text holds the placeholder being replaced: the pass ends
    and the text is copied as it is. *)
Lemma formatLogMessage_terminates_witness :
  (∃ fuel, formatLogMessage_fuel fuel "{m}"
             (mkLogMessage INFO "{m}{m}" "a.cpp" 10 "T") = Some ("{m}{m}" : str))
  ∧ take (0 + 6) (replace "{m}" 0 3 "{m}{m}") = ("{m}{m}" : str).
Proof.
  destruct (formatLogMessage_terminates "{m}"
              (mkLogMessage INFO "{m}{m}" "a.cpp" 10 "T")) as [Hfuel Hiter].
  split; [exact Hfuel|].
  refine (proj1 (Hiter "{m}" "{m}{m}" "{m}" 0 0 _ _)).
  - unfold placeholders. rewrite !elem_of_cons. tauto.
  - reflexivity.
Defined.

(** ** Level filtering *)

(** C3: a call of [log] with a level strictly below the current minimum
    changes nothing: no message is made, the queue and every other part of
    the program state stay as they are, so that no output can come from
    the call; with a level at or above the minimum the message is pushed
    at the back of the queue. *)
Theorem log_filters_by_level (now : tm) (L : LogLevel) (text f : str)
  (ln : Z) (lg : Logger) :
  ((level_value L < level_value (currentLevel lg))%Z →
     log now L text f ln lg = lg
     ∧ ∀ s, logger s = lg → call (CallLog now L text f ln) s = Some s)
  ∧ ((level_value (currentLevel lg) ≤ level_value L)%Z →
     messageQueue (log now L text f ln lg)
     = messageQueue lg ++ [mkLogMessage L text f ln (getTimestamp now)]).
Proof.
  unfold log, call, level_lt. split.
  - intros Hlt. apply Z.ltb_lt in Hlt. rewrite Hlt. split; [done|].
    intros s ->. by rewrite Hlt.
  - intros Hge. apply Z.ltb_ge in Hge. by rewrite Hge.
Qed.

Lemma log_filters_by_level_witness :
  log (mkTm 124 0 1 12 0 0) DEBUG "x" "a.cpp" 7
    (set_currentLevel WARNING (Logger_new (mkTm 124 0 1 12 0 0)))
  = set_currentLevel WARNING (Logger_new (mkTm 124 0 1 12 0 0))
  ∧ messageQueue (log (mkTm 124 0 1 12 0 0) ERROR_ "x" "a.cpp" 7
                    (set_currentLevel WARNING (Logger_new (mkTm 124 0 1 12 0 0))))
    = [mkLogMessage ERROR_ "x" "a.cpp" 7 "2024-01-01 12:00:00"].
Proof.
  split.
  - refine (proj1 (proj1 (log_filters_by_level _ DEBUG _ _ _ _) _)).
    vm_compute. reflexivity.
  - refine (proj2 (log_filters_by_level (mkTm 124 0 1 12 0 0) ERROR_ "x" "a.cpp" 7
                     (set_currentLevel WARNING (Logger_new (mkTm 124 0 1 12 0 0)))) _).
    vm_compute. discriminate.
Defined.

(** ** The path of the log file *)

Lemma rfind_app (a b : str) (c : ascii) :
  rfind (a ++ b) c
  = match rfind b c with
    | Some j => Some (length a + j)
    | None => rfind a c
    end.
Proof.
  induction a as [|x a IH]; simpl.
  - by destruct (rfind b c).
  - rewrite IH. by destruct (rfind b c).
Qed.

Lemma rfind_lt (s : str) (c : ascii) (i : nat) :
  rfind s c = Some i → i < length s.
Proof.
  revert i; induction s as [|x s IH]; intros i; simpl; [done|].
  destruct (rfind s c) as [j|].
  - intros [= <-]. specialize (IH j eq_refl). lia.
  - destruct (Ascii.eqb x c); [|done]. intros [= <-]. lia.
Qed.

Lemma directory_length_le (path : str) : directory_length path ≤ length path.
Proof.
  induction path as [|c path IH]; [done|].
  cbn [directory_length length]. destruct (existsb _ _); lia.
Qed.

Lemma effective_path_unchanged (ts fp : str) : effective_path ts fp false = fp.
Proof. done. Qed.

Lemma effective_path_without_dot (ts fp : str) :
  rfind fp "." = None → effective_path ts fp true = fp ++ "_" ++ ts.
Proof. unfold effective_path. by intros ->. Qed.

Lemma splice_app (x y m1 m2 : str) (j : nat) :
  take (length x + j) (x ++ y) ++ m1 ++ m2 ++ drop (length x + j) (x ++ y)
  = x ++ take j y ++ m1 ++ m2 ++ drop j y.
Proof. by rewrite take_app_add, drop_app_add, <- app_assoc. Qed.

(** Where the last dot of the path lies in the file name, [init] puts the
    suffix where the specification wants it. *)
Lemma effective_path_agrees (ts fp : str) (suffix : bool) :
  (∀ dot, rfind fp "." = Some dot → directory_length fp ≤ dot) →
  effective_path ts fp suffix = spec_effective_path ts fp suffix.
Proof.
  intros Hdot. unfold effective_path, spec_effective_path, substr_to, substr_from.
  destruct suffix; [|done].
  pose proof (directory_length_le fp) as Hle.
  set (dl := directory_length fp) in *.
  assert (Hx : length (take dl fp) = dl) by (rewrite length_take; lia).
  pose proof (rfind_app (take dl fp) (drop dl fp) ".") as Happ.
  rewrite take_drop in Happ.
  destruct (rfind (drop dl fp) ".") as [j|] eqn:Hj.
  - rewrite Happ.
    pose proof (splice_app (take dl fp) (drop dl fp) "_" ts j) as H.
    by rewrite take_drop in H.
  - rewrite Happ. destruct (rfind (take dl fp) ".") as [i|] eqn:Hi; [|done].
    apply rfind_lt in Hi as Hlt. rewrite Happ in Hdot.
    specialize (Hdot i eq_refl). lia.
Qed.

(** C7, at the path logs.d/app: the file name app has no extension, so
    that the suffix belongs at the end of the path; [init] puts it before
    the last dot of the path, in the name of the directory. *)
Theorem suffix_lands_in_directory_name (ts : str) :
  effective_path ts "logs.d/app" true = "logs_" ++ ts ++ ".d/app"
  ∧ spec_effective_path ts "logs.d/app" true = "logs.d/app_" ++ ts
  ∧ effective_path ts "logs.d/app" true ≠ spec_effective_path ts "logs.d/app" true.
Proof.
  split; [reflexivity|]. split; [reflexivity|].
  cbn. intros [=].
Qed.

(** ** The sink writer *)

Lemma content_insert (w : World) (path : str) (data : str) :
  content (set_disk (<[path := data]> (disk w)) w) path = data.
Proof. unfold content. simpl. by rewrite lookup_insert_eq. Qed.

Lemma writeLog_closed (msg : LogMessage) (lg : Logger) (w : World) :
  has_bit (outputTarget lg) File = true → is_open (logFileStream lg) = false →
  writeLog msg lg w
  = (lg, print FileNotOpen
           (if has_bit (outputTarget lg) Console
            then print (ConsoleOutput (formatLogMessage (formatTemplate lg) msg)) w
            else w)).
Proof. intros Hf Ho. unfold writeLog. by rewrite Hf, Ho. Qed.

Lemma is_open_Some (s : ofstream) (path : str) :
  fs_file s = Some path → is_open s = true.
Proof. intros H. unfold is_open. rewrite H. by apply bool_decide_eq_true. Qed.

Lemma content_print (l : ConsoleLine) (w : World) (path : str) :
  content (print l w) path = content w path.
Proof. done. Qed.

Lemma ofstream_write_open (s : ofstream) (data : str) (path : str) :
  fs_file s = Some path → fs_fail s = false →
  ofstream_write s data
  = mkOfstream (Some path) (fs_app s) false (fs_buffer s ++ data) false.
Proof. intros Hp Hg. unfold ofstream_write. by rewrite Hg, Hp. Qed.

Lemma ofstream_write_good (path : str) (a fresh : bool) (buffer data : str) :
  ofstream_write (mkOfstream (Some path) a false buffer fresh) data
  = mkOfstream (Some path) a false (buffer ++ data) false.
Proof. done. Qed.

Lemma ofstream_flush_good (path : str) (a fresh : bool) (buffer : str) (w : World) :
  ofstream_flush (mkOfstream (Some path) a false buffer fresh) w
  = (mkOfstream (Some path) a false [] fresh,
     set_disk (<[path := content w path ++ buffer]> (disk w)) w).
Proof. done. Qed.

Lemma ofstream_write_failed (s : ofstream) (data : str) :
  fs_fail s = true → ofstream_write s data = s.
Proof. intros Hfail. unfold ofstream_write. by rewrite Hfail. Qed.

Lemma ofstream_flush_failed (s : ofstream) (w : World) :
  fs_fail s = true → ofstream_flush s w = (s, w).
Proof. intros Hfail. unfold ofstream_flush. by rewrite Hfail. Qed.

Lemma writeLog_open (msg : LogMessage) (lg : Logger) (w : World) (path : str) :
  has_bit (outputTarget lg) File = true →
  fs_file (logFileStream lg) = Some path → fs_fail (logFileStream lg) = false →
  let output := formatLogMessage (formatTemplate lg) msg in
  disk (writeLog msg lg w).2 !! path
  = Some (content w path ++ fs_buffer (logFileStream lg) ++ output ++ newline)
  ∧ logFileStream (writeLog msg lg w).1
    = mkOfstream (Some path) (fs_app (logFileStream lg)) false [] false.
Proof.
  intros Hf Hp Hg output. unfold writeLog. fold output.
  rewrite Hf, (is_open_Some _ _ Hp). unfold endl.
  rewrite (ofstream_write_open _ output path Hp Hg).
  rewrite ofstream_write_good, ofstream_flush_good.
  cbv beta iota zeta.
  rewrite ofstream_flush_good.
  cbv beta iota zeta. cbn [fst snd].
  split; [|by destruct lg].
  unfold set_disk at 1. cbn [disk]. rewrite lookup_insert_eq.
  rewrite content_insert, !content_print, app_nil_r, <- !app_assoc.
  by destruct (has_bit (outputTarget lg) Console).
Qed.

Lemma ofstream_flush_console (s : ofstream) (w : World) :
  console (ofstream_flush s w).2 = console w.
Proof.
  unfold ofstream_flush. destruct (fs_fail s); [done|]. by destruct (fs_file s).
Qed.

(** With the Console bit set the rendered string is the next line on the
    console. *)
Lemma writeLog_console (msg : LogMessage) (lg : Logger) (w : World) :
  has_bit (outputTarget lg) Console = true →
  ∃ lines, console (writeLog msg lg w).2
           = console w
             ++ ConsoleOutput (formatLogMessage (formatTemplate lg) msg) :: lines.
Proof.
  intros Hc. unfold writeLog, endl. rewrite Hc.
  destruct (has_bit (outputTarget lg) File); [|by exists []].
  destruct (is_open (logFileStream lg)).
  - destruct (ofstream_flush (ofstream_write _ newline) _) as [s1 w1] eqn:H1.
    destruct (ofstream_flush s1 w1) as [s2 w2] eqn:H2. cbn [snd].
    apply (f_equal (λ r, console r.2)) in H1, H2.
    rewrite ofstream_flush_console in H1, H2. cbn [snd] in H1, H2.
    rewrite <- H2, <- H1. cbn. rewrite <- !app_assoc. by eexists.
  - cbn. rewrite <- app_assoc. by eexists.
Qed.

(** C9: with the File bit set, a message written while no file is open
    leaves the files as they are and puts the line saying so on the
    console, and [writeLog] returns with the logger unchanged; while a file
    is open (and the stream in no error state) the file receives what was
    still buffered, the rendered string and the line terminator, and the
    buffer is empty afterwards: the stream has been flushed. *)
Theorem writeLog_file_destination (msg : LogMessage) (lg : Logger) (w : World) :
  has_bit (outputTarget lg) File = true →
  let output := formatLogMessage (formatTemplate lg) msg in
  (is_open (logFileStream lg) = false →
     (writeLog msg lg w).1 = lg
     ∧ disk (writeLog msg lg w).2 = disk w
     ∧ console (writeLog msg lg w).2
       = console w
         ++ (if has_bit (outputTarget lg) Console then [ConsoleOutput output] else [])
         ++ [FileNotOpen])
  ∧ (∀ path, fs_file (logFileStream lg) = Some path →
       fs_fail (logFileStream lg) = false →
       disk (writeLog msg lg w).2 !! path
       = Some (content w path ++ fs_buffer (logFileStream lg) ++ output ++ newline)
       ∧ fs_buffer (logFileStream (writeLog msg lg w).1) = []
       ∧ fs_file (logFileStream (writeLog msg lg w).1) = Some path
       ∧ fs_fail (logFileStream (writeLog msg lg w).1) = false).
Proof.
  intros Hf output. split.
  - intros Ho. rewrite writeLog_closed by done. fold output. cbn.
    destruct (has_bit (outputTarget lg) Console); cbn;
      by rewrite <- ?app_assoc.
  - intros path Hp Hg.
    destruct (writeLog_open msg lg w path Hf Hp Hg) as [Hd Hs].
    by rewrite Hd, Hs.
Qed.

Lemma writeLog_file_destination_witness :
  (writeLog sample_message (set_outputTarget File (Logger_new noon)) empty_world).1
  = set_outputTarget File (Logger_new noon)
  ∧ disk (writeLog sample_message
            (logger_of
               (init TRACE "a.log" true false
                  (set_outputTarget File (Logger_new noon)) empty_world))
            (world_of
               (init TRACE "a.log" true false
                  (set_outputTarget File (Logger_new noon)) empty_world))).2
    !! ("a.log" : str)
    = Some (bom ++ ("2024-01-01 12:00:00 | DEBUG | f.cpp:1 -> x" : str) ++ newline).
Proof.
  split.
  - refine (proj1 (proj1 (writeLog_file_destination sample_message
                            (set_outputTarget File (Logger_new noon))
                            empty_world _) _)); reflexivity.
  - refine (proj1 (proj2 (writeLog_file_destination sample_message
                            (logger_of
                               (init TRACE "a.log" true false
                                  (set_outputTarget File (Logger_new noon))
                                  empty_world))
                            (world_of
                               (init TRACE "a.log" true false
                                  (set_outputTarget File (Logger_new noon))
                                  empty_world))
                            _) "a.log" _ _)); reflexivity.
Defined.

(** ** [init] and the byte-order mark *)

(** The directory step leaves the files, the console and the choices of
    the platform as they are. *)
Lemma ensure_directory_frame (filePath : str) (w w0 : World) :
  ensure_directory filePath w = Some w0 →
  disk w0 = disk w ∧ console w0 = console w
  ∧ append_at_end w0 = append_at_end w ∧ writable w0 = writable w.
Proof.
  unfold ensure_directory, create_directories.
  destruct (_ && _); [|by intros [= <-]].
  destruct (creatable _ _); [|done]. by intros [= <-].
Qed.

Lemma init_throws (level : LogLevel) (filePath : str) (append suffix : bool)
  (lg : Logger) (w : World) :
  ensure_directory filePath w = None →
  init level filePath append suffix lg w = Throws (set_currentLevel level lg) w.
Proof. intros Hd. unfold init. by rewrite Hd. Qed.

Lemma init_opens (level : LogLevel) (filePath : str) (append suffix : bool)
  (lg : Logger) (w w0 : World) :
  let path := effective_path (startupTime lg) filePath suffix in
  let w1 :=
    set_disk (<[path := if append then content w0 path else []]> (disk w0)) w0 in
  let s0 := mkOfstream (Some path) append false [] true in
  ensure_directory filePath w = Some w0 →
  is_open (logFileStream lg) = false → can_open w0 path = true →
  init level filePath append suffix lg w
  = Returns
      (set_logFileStream
         (if (tellp s0 w1 =? 0)%Z then ofstream_write s0 bom else s0)
         (set_logFilePath path (set_currentLevel level lg))) w1.
Proof.
  intros path w1 s0 Hd Ho Hw. unfold init, ofstream_open. rewrite Hd. cbn.
  fold path. by rewrite Ho, Hw.
Qed.

(** C8: [init] on a logger whose stream is not open, for a path that can
    be opened, the File bit being set.  If the file is new or empty (or is
    emptied, [append] being false), the mark is put on the stream before
    any line, and after the first [writeLog] the file holds the three
    bytes EF BB BF and, right behind them, the rendered line.  If the file
    has content and is appended to, the test of line 103 goes by the
    position the fresh stream reports.  Where that is the end of the file,
    no mark is put: the first line comes right behind the content.  Where
    it is the start of the file, as under the Microsoft runtime, the mark
    is put once more and lands behind the content, in the middle of the
    file. *)
Theorem init_writes_bom (level : LogLevel) (filePath : str) (append suffix : bool)
  (lg : Logger) (w w0 : World) (msg : LogMessage) :
  let path := effective_path (startupTime lg) filePath suffix in
  let lg1 := logger_of (init level filePath append suffix lg w) in
  let w1 := world_of (init level filePath append suffix lg w) in
  let output := formatLogMessage (formatTemplate lg) msg in
  ensure_directory filePath w = Some w0 →
  is_open (logFileStream lg) = false →
  can_open w0 path = true →
  has_bit (outputTarget lg) File = true →
  (append = false ∨ content w path = [] →
     fs_file (logFileStream lg1) = Some path
     ∧ content w1 path = []
     ∧ fs_buffer (logFileStream lg1) = ["239"; "187"; "191"]%char
     ∧ disk (writeLog msg lg1 w1).2 !! path
       = Some (["239"; "187"; "191"]%char ++ output ++ newline))
  ∧ (append = true → content w path ≠ [] → append_at_end w = true →
     fs_file (logFileStream lg1) = Some path
     ∧ content w1 path = content w path
     ∧ fs_buffer (logFileStream lg1) = []
     ∧ disk (writeLog msg lg1 w1).2 !! path
       = Some (content w path ++ output ++ newline))
  ∧ (append = true → content w path ≠ [] → append_at_end w = false →
     fs_file (logFileStream lg1) = Some path
     ∧ content w1 path = content w path
     ∧ fs_buffer (logFileStream lg1) = ["239"; "187"; "191"]%char
     ∧ disk (writeLog msg lg1 w1).2 !! path
       = Some (content w path ++ ["239"; "187"; "191"]%char
               ++ output ++ newline)).
Proof.
  intros path lg1 w1 output Hd Ho Hw Hf. subst lg1 w1.
  rewrite (init_opens level filePath append suffix lg w w0 Hd Ho Hw).
  fold path. cbn [logger_of world_of].
  destruct (ensure_directory_frame _ _ _ Hd) as (Hdisk & _ & Hplatform & _).
  assert (Hcw : content w0 path = content w path)
    by (unfold content; by rewrite Hdisk).
  rewrite Hcw. rewrite <- Hplatform.
  set (old := if append then content w path else []).
  set (w1 := set_disk (<[path:=old]> (disk w0)) w0).
  assert (Hc : content w1 path = old) by apply content_insert.
  split; [|split].
  - intros Hempty.
    assert (Hold : old = []).
    { subst old. destruct Hempty as [Ha|Hb]; [by rewrite Ha|].
      rewrite Hb. by destruct append. }
    assert (Ht : tellp (mkOfstream (Some path) append false [] true) w1 = 0%Z).
    { unfold tellp. cbn. rewrite Hc, Hold. by destruct append, (append_at_end w0). }
    rewrite Ht. cbn. rewrite Hc, Hold. do 3 (split; [done|]).
    refine (eq_trans (proj1 (writeLog_open msg _ w1 path _ _ _)) _); try done.
    cbn. by rewrite Hc, Hold.
  - intros -> Hne Hend. subst old.
    assert (Ht : tellp (mkOfstream (Some path) true false [] true) w1 ≠ 0%Z).
    { unfold tellp. cbn. rewrite Hc, Hend. cbn.
      destruct (content w path); [done|]. cbn. lia. }
    apply Z.eqb_neq in Ht. rewrite Ht. cbn. rewrite Hc. do 3 (split; [done|]).
    refine (eq_trans (proj1 (writeLog_open msg _ w1 path _ _ _)) _); try done.
    cbn. by rewrite Hc.
  - intros -> Hne Hstart. subst old.
    assert (Ht : tellp (mkOfstream (Some path) true false [] true) w1 = 0%Z).
    { unfold tellp. cbn. by rewrite Hstart. }
    rewrite Ht. cbn. rewrite Hc. do 3 (split; [done|]).
    refine (eq_trans (proj1 (writeLog_open msg _ w1 path _ _ _)) _); try done.
    cbn. by rewrite Hc.
Qed.

Lemma init_writes_bom_witness :
  disk (writeLog sample_message
          (logger_of
             (init TRACE "a.log" true false
                (set_outputTarget File (Logger_new noon)) empty_world))
          (world_of
             (init TRACE "a.log" true false
                (set_outputTarget File (Logger_new noon)) empty_world))).2
  !! ("a.log" : str)
  = Some (["239"; "187"; "191"]%char
          ++ ("2024-01-01 12:00:00 | DEBUG | f.cpp:1 -> x" : str) ++ newline)
  ∧ disk (writeLog sample_message
            (logger_of
               (init TRACE "a.log" true false
                  (set_outputTarget File (Logger_new noon))
                  microsoft_world_with_log))
            (world_of
               (init TRACE "a.log" true false
                  (set_outputTarget File (Logger_new noon))
                  microsoft_world_with_log))).2
    !! ("a.log" : str)
    = Some (("old line" : str) ++ ["239"; "187"; "191"]%char
            ++ ("2024-01-01 12:00:00 | DEBUG | f.cpp:1 -> x" : str) ++ newline)
  ∧ disk (writeLog sample_message
            (logger_of
               (init TRACE "a.log" true false
                  (set_outputTarget File (Logger_new noon)) world_with_log))
            (world_of
               (init TRACE "a.log" true false
                  (set_outputTarget File (Logger_new noon)) world_with_log))).2
    !! ("a.log" : str)
    = Some (("old line" : str)
            ++ ("2024-01-01 12:00:00 | DEBUG | f.cpp:1 -> x" : str) ++ newline).
Proof.
  split; [|split].
  - refine (proj2 (proj2 (proj2 (proj1
              (init_writes_bom TRACE "a.log" true false
                 (set_outputTarget File (Logger_new noon)) empty_world
                 empty_world sample_message _ _ _ _) _)))); try reflexivity.
    right. reflexivity.
  - refine (proj2 (proj2 (proj2 (proj2 (proj2
              (init_writes_bom TRACE "a.log" true false
                 (set_outputTarget File (Logger_new noon))
                 microsoft_world_with_log microsoft_world_with_log
                 sample_message _ _ _ _)) _ _ _)))); try reflexivity.
    vm_compute. discriminate.
  - refine (proj2 (proj2 (proj2 (proj1 (proj2
              (init_writes_bom TRACE "a.log" true false
                 (set_outputTarget File (Logger_new noon))
                 world_with_log world_with_log
                 sample_message _ _ _ _)) _ _ _)))); try reflexivity.
    vm_compute. discriminate.
Defined.

(** ** Calling [init] again *)

(** [init] on a logger whose stream is open, the directory step passed:
    the stream stays with its file and is left in an error state; no file
    is closed, opened or created; the path stored is the new one. *)
Lemma init_on_open_stream (level : LogLevel) (filePath : str) (append suffix : bool)
  (lg : Logger) (w w0 : World) (path : str) :
  ensure_directory filePath w = Some w0 →
  fs_file (logFileStream lg) = Some path →
  init level filePath append suffix lg w
  = Returns
      (set_logFileStream (setstate_fail (logFileStream lg))
         (set_logFilePath (effective_path (startupTime lg) filePath suffix)
            (set_currentLevel level lg))) w0.
Proof.
  intros Hd Hp. unfold init, ofstream_open. rewrite Hd. cbn.
  rewrite (is_open_Some _ _ Hp). cbn.
  unfold tellp. cbn. rewrite Hp. cbn. by rewrite andb_false_r.
Qed.

(** In an error state [writeLog] reaches no file. *)
Lemma writeLog_failed_stream (msg : LogMessage) (lg : Logger) (w : World) :
  fs_fail (logFileStream lg) = true → disk (writeLog msg lg w).2 = disk w.
Proof.
  intros Hfail. unfold writeLog, endl.
  rewrite (ofstream_write_failed _ _ Hfail), (ofstream_write_failed _ _ Hfail).
  rewrite (ofstream_flush_failed _ _ Hfail). cbv beta iota zeta.
  rewrite (ofstream_flush_failed _ _ Hfail). cbv beta iota zeta.
  by destruct (has_bit (outputTarget lg) Console),
       (has_bit (outputTarget lg) File), (is_open (logFileStream lg)).
Qed.

(** C4, on the run [reinit_run]: after [init] for a.log and [init] for
    b.log the worker handles the message logged afterwards and announces a
    write to b.log, yet no file b.log exists at the end and a.log holds
    the byte-order mark alone: the second [init] neither closed a.log nor
    opened b.log, and the message reached no file. *)
Theorem reinit_keeps_old_file :
  ∃ s, run reinit_run (initial noon empty_world) = Some s
       ∧ owner s = Destroyed
       ∧ handled s = [sample_message]
       ∧ logFilePath (logger s) = ("b.log" : str)
       ∧ console (world s) = [FileWriting "b.log"; FileWritten 42]
       ∧ disk (world s) !! ("b.log" : str) = None
       ∧ disk (world s) !! ("a.log" : str) = Some bom.
Proof.
  eexists. split; [by vm_compute|]. by vm_compute.
Qed.

(** C9, the counterexample: after the second [init] of [reinit_run] the
    File bit is set and the file a.log is open, yet [writeLog] appends
    nothing to any file and puts nothing in the buffer of the stream,
    while the console announces the write. *)
Lemma open_stream_drops_message :
  has_bit (outputTarget (logger after_second_init)) File = true
  ∧ is_open (logFileStream (logger after_second_init)) = true
  ∧ disk (world after_second_init) !! ("a.log" : str) = Some []
  ∧ disk (writeLog sample_message (logger after_second_init)
            (world after_second_init)).2 !! ("a.log" : str) = Some []
  ∧ disk (writeLog sample_message (logger after_second_init)
            (world after_second_init)).2 !! ("b.log" : str) = None
  ∧ fs_buffer (logFileStream (writeLog sample_message (logger after_second_init)
                                (world after_second_init)).1)
    = fs_buffer (logFileStream (logger after_second_init))
  ∧ console (writeLog sample_message (logger after_second_init)
               (world after_second_init)).2
    = [FileWriting "b.log"; FileWritten 42].
Proof. repeat split; vm_compute; reflexivity. Qed.

(** ** The queue, the worker and the shutdown *)

Lemma init_frame (level : LogLevel) (filePath : str) (append suffix : bool)
  (lg : Logger) (w : World) :
  ∃ st p, logger_of (init level filePath append suffix lg w)
          = mkLogger level (outputTarget lg) st (startupTime lg) p
              (messageQueue lg) (exitFlag lg) (formatTemplate lg)
          ∧ console (world_of (init level filePath append suffix lg w))
            = console w
          ∧ (fs_buffer st = [] ∨ fs_buffer st = bom
             ∨ fs_buffer st = fs_buffer (logFileStream lg)).
Proof.
  unfold init.
  destruct (ensure_directory filePath w) as [w0|] eqn:Hd.
  - destruct (ensure_directory_frame _ _ _ Hd) as (_ & Hcons & _).
    cbn [set_currentLevel set_logFilePath logFileStream logFilePath startupTime].
    unfold ofstream_open.
    destruct (is_open (logFileStream lg)) eqn:Ho.
    + assert (Hc : is_open (setstate_fail (logFileStream lg)) = true)
        by (unfold is_open in *; by destruct (logFileStream lg)).
      rewrite Hc.
      assert (Ht : tellp (setstate_fail (logFileStream lg)) w0 = (-1)%Z)
        by (unfold tellp; cbn; by destruct (fs_file (logFileStream lg))).
      rewrite Ht. cbn. eexists _, _. split; [reflexivity|]. split; [done|].
      right; right. by destruct (logFileStream lg).
    + destruct (can_open w0 _).
      * cbn [is_open fs_file]. eexists _, _. split; [reflexivity|].
        split; [done|].
        destruct (_ && _); cbn; [right; by left|by left].
      * assert (Hc : is_open (setstate_fail (logFileStream lg)) = false)
          by (unfold is_open in *; by destruct (logFileStream lg)).
        rewrite Hc. cbn. eexists _, _. split; [reflexivity|]. split; [done|].
        right; right. by destruct (logFileStream lg).
  - cbn. eexists _, _. split; [reflexivity|]. split; [done|]. by right; right.
Qed.

Lemma writeLog_shape (msg : LogMessage) (lg : Logger) (w : World) :
  ∃ st w', writeLog msg lg w
           = (mkLogger (currentLevel lg) (outputTarget lg) st (startupTime lg)
                (logFilePath lg) (messageQueue lg) (exitFlag lg)
                (formatTemplate lg), w').
Proof.
  unfold writeLog.
  destruct (has_bit _ File); [|destruct lg; by eexists _, _].
  destruct (is_open _); [|destruct lg; by eexists _, _].
  destruct (endl _ _) as [s1 w1]. destruct (ofstream_flush _ _) as [s2 w2].
  by eexists _, _.
Qed.

Lemma writeLog_failed (msg : LogMessage) (lg : Logger) (w : World) :
  fs_fail (logFileStream lg) = true →
  logFileStream (writeLog msg lg w).1 = logFileStream lg
  ∧ disk (writeLog msg lg w).2 = disk w.
Proof.
  intros Hfail. split; [|by apply writeLog_failed_stream].
  unfold writeLog, endl.
  rewrite (ofstream_write_failed _ _ Hfail), (ofstream_write_failed _ _ Hfail).
  rewrite (ofstream_flush_failed _ _ Hfail). cbv beta iota zeta.
  rewrite (ofstream_flush_failed _ _ Hfail). cbv beta iota zeta.
  by destruct (has_bit (outputTarget lg) Console),
       (has_bit (outputTarget lg) File), (is_open (logFileStream lg)).
Qed.

(** [writeLog] leaves the buffer of the stream empty or the stream as it
    was. *)
Lemma writeLog_stream (msg : LogMessage) (lg : Logger) (w : World) :
  fs_buffer (logFileStream (writeLog msg lg w).1) = []
  ∨ logFileStream (writeLog msg lg w).1 = logFileStream lg.
Proof.
  destruct (has_bit (outputTarget lg) File) eqn:Hf;
    [|right; unfold writeLog; by rewrite Hf].
  destruct (fs_fail (logFileStream lg)) eqn:Hfail;
    [right; by apply writeLog_failed|].
  destruct (fs_file (logFileStream lg)) as [path|] eqn:Hp.
  - left. by rewrite (proj2 (writeLog_open msg lg w path Hf Hp Hfail)).
  - right. rewrite writeLog_closed; [done..|].
    unfold is_open. rewrite Hp. apply bool_decide_eq_false. by intros [? ?].
Qed.

Lemma writeLog_frame (msg : LogMessage) (lg : Logger) (w : World) :
  ∃ st w', writeLog msg lg w
           = (mkLogger (currentLevel lg) (outputTarget lg) st (startupTime lg)
                (logFilePath lg) (messageQueue lg) (exitFlag lg)
                (formatTemplate lg), w')
           ∧ (fs_buffer st = [] ∨ st = logFileStream lg).
Proof.
  destruct (writeLog_shape msg lg w) as (st & w' & Hw).
  exists st, w'. split; [done|].
  pose proof (writeLog_stream msg lg w) as Hst. by rewrite Hw in Hst.
Qed.

Lemma invariant_initial (now : tm) (w : World) : invariant (initial now w).
Proof. split; cbn; try done; [by intros [|[|]]|by left]. Qed.

Lemma in_flight_notify (pc : WorkerPC) : in_flight (notify pc) = in_flight pc.
Proof. by destruct pc. Qed.

Lemma notify_final (pc : WorkerPC) :
  (notify pc = AtFinalLock ∨ notify pc = FinalDrain ∨ notify pc = Exited) →
  pc = AtFinalLock ∨ pc = FinalDrain ∨ pc = Exited.
Proof. destruct pc; cbn; intuition discriminate. Qed.

Lemma notify_exited (pc : WorkerPC) : notify pc = Exited → pc = Exited.
Proof. by destruct pc. Qed.

Lemma notify_predicate (pc : WorkerPC) :
  notify pc = AboutToBlock → pc = AboutToBlock.
Proof. by destruct pc. Qed.

Lemma notify_wakes (pc : WorkerPC) : notify pc ≠ Blocked.
Proof. by destruct pc. Qed.

(** Closes the cases of an invariant in which the program counter of the
    worker rules the premise out. *)
Ltac other_pc :=
  first [ done | by intros [|[|]] | by intros [|] ].

Lemma invariant_call (c : Call) (s s' : System) :
  invariant s → call c s = Some s' → invariant s'.
Proof.
  intros [Hq Hf Hs Hfin Hex Hpred Hwait Hdes Hbuf] Hcall.
  assert (Hlocked : locked_call c s = Some s' → invariant s').
  { clear Hcall. unfold locked_call.
    destruct (holds_lock (worker s)) eqn:Hlock; [done|].
    destruct c as [level fp append suffix|level|target|t|now level text f ln].
    - destruct (init_frame level fp append suffix (logger s) (world s))
        as (st & p & -> & _ & Hst).
      intros [= <-]. split; try done. cbn.
      destruct Hst as [Hst|[Hst|Hst]]; [by left|by right|by rewrite Hst].
    - intros [= <-]. by split.
    - intros [= <-]. by split.
    - intros [= <-]. by split.
    - intros [= <-]. split; cbn; try done.
      + rewrite Hq. by rewrite <- !app_assoc.
      + intros Ho. by apply prefix_app_r, Hs.
      + intros Hpc. by rewrite Hpc in Hlock.
      + intros Hpc. specialize (Hwait Hpc). rewrite length_app. cbn. lia. }
  destruct c; try exact (Hlocked Hcall).
  cbn in Hcall. destruct (level_lt _ _); [|exact (Hlocked Hcall)].
  injection Hcall as <-. by split.
Qed.

Lemma invariant_do_write (msg : LogMessage) (s : System) :
  ∃ st w', do_write msg s
           = mkSystem
               (mkLogger (currentLevel (logger s)) (outputTarget (logger s)) st
                  (startupTime (logger s)) (logFilePath (logger s))
                  (messageQueue (logger s)) (exitFlag (logger s))
                  (formatTemplate (logger s)))
               w' (worker s) (owner s) (notifying s) (pushed s)
               (handled s ++ [msg]) (pushed_at_signal s)
           ∧ (fs_buffer st = [] ∨ st = logFileStream (logger s)).
Proof.
  unfold do_write.
  destruct (writeLog_frame msg (logger s) (world s)) as (st & w' & -> & Hst).
  by eexists _, _.
Qed.

Lemma invariant_worker_step (s s' : System) :
  invariant s → worker_step s = Some s' → invariant s'.
Proof.
  intros [Hq Hf Hs Hfin Hex Hpred Hwait Hdes Hbuf].
  destruct s as [[lv tg st su pa qu ef ft] wd pc ow nt pu ha ps].
  unfold worker_step. cbn in *.
  assert (Halive : ∀ pc', pc ≠ Exited → ow = Destroyed → pc' = Exited).
  { intros pc' Hpc Ho. by specialize (Hdes Ho). }
  destruct pc as [| | | | | | |msg| | | |]; cbn in *; try discriminate.
  - (* line 258 *)
    intros [= <-]. split; cbn; try done; try (by apply Halive).
    + by destruct ef.
    + destruct ef; [done|]. by intros [|[|]].
    + by destruct ef.
    + by destruct ef.
    + by destruct ef.
  - (* line 259 *)
    intros [= <-]. split; cbn; try other_pc; by apply Halive.
  - (* line 260, the predicate *)
    destruct (bool_decide (qu = [])) eqn:Hempty; cbn.
    + apply bool_decide_eq_true in Hempty as ->.
      destruct ef; intros [= <-]; split; cbn; try other_pc; by apply Halive.
    + intros [= <-]. split; cbn; try other_pc; by apply Halive.
  - (* line 260, the wait *)
    intros [= <-]. split; cbn; try other_pc; try (by apply Halive).
    intros _. rewrite Hpred by done. cbn. lia.
  - (* line 260, after the wait *)
    intros [= <-]. split; cbn; try other_pc; by apply Halive.
  - (* line 262 *)
    destruct qu as [|msg q]; intros [= <-]; split; cbn; try other_pc;
      by apply Halive.
  - (* line 267 *)
    destruct (invariant_do_write msg
                (mkSystem (mkLogger lv tg st su pa qu ef ft) wd (Writing msg)
                   ow nt pu ha ps)) as (st' & w' & -> & Hst).
    intros [= <-]. split; cbn; try other_pc; try (by apply Halive).
    + by rewrite Hq, <- !app_assoc.
    + cbn in Hst. destruct Hst as [Hst| ->]; [by left|done].
  - (* line 269 *)
    intros [= <-]. split; cbn; try other_pc; by apply Halive.
  - (* line 274 *)
    intros [= <-]. split; cbn; try other_pc; try (by apply Halive).
    intros _. apply Hfin. by left.
  - (* line 275 *)
    assert (Hflag : ef = true) by (apply Hfin; right; by left).
    destruct qu as [|msg q].
    + intros [= <-]. split; cbn; try other_pc. intros _.
      rewrite app_nil_r in Hq. rewrite <- Hq. apply Hs. by rewrite <- Hf.
    + destruct (invariant_do_write msg
                  (mkSystem (mkLogger lv tg st su pa (msg :: q) ef ft) wd
                     FinalDrain ow nt pu ha ps)) as (st' & w' & -> & Hst).
      cbn. intros [= <-]. split; cbn; try other_pc; try (by apply Halive).
      * by rewrite Hq, <- !app_assoc.
      * cbn in Hst. destruct Hst as [Hst| ->]; [by left|done].
Qed.

Lemma invariant_step (l : Label) (s s' : System) :
  invariant s → exec l s = Some s' → invariant s'.
Proof.
  intros Hinv. destruct l; cbn.
  - destruct (owner s); try done; by apply invariant_call.
  - destruct Hinv as [Hq Hf Hs Hfin Hex Hpred Hwait Hdes Hbuf].
    destruct (owner s) eqn:Ho; destruct (notifying s) as [|n] eqn:Hn;
      try done; intros [= <-];
      (split; cbn; try done;
       first [ by rewrite in_flight_notify
             | intros H%notify_final; by apply Hfin
             | intros H%notify_exited; by apply Hex
             | intros H%notify_predicate; by apply Hpred
             | intros H; by apply notify_wakes in H
             | by rewrite Ho ]).
  - by apply invariant_worker_step.
  - destruct Hinv as [Hq Hf Hs Hfin Hex Hpred Hwait Hdes Hbuf].
    destruct (worker s) eqn:Hpc; try done. intros [= <-].
    split; cbn; try other_pc. intros Ho. by specialize (Hdes Ho).
  - destruct Hinv as [Hq Hf Hs Hfin Hex Hpred Hwait Hdes Hbuf].
    destruct (owner s) eqn:Ho; try done. intros [= <-].
    split; cbn; try done.
    intros Hexit. specialize (Hfin (or_intror (or_intror Hexit))).
    by rewrite Hf in Hfin.
  - destruct Hinv as [Hq Hf Hs Hfin Hex Hpred Hwait Hdes Hbuf].
    destruct (owner s) eqn:Ho; try done. intros [= <-].
    split; cbn; try done;
      first [ by rewrite in_flight_notify
            | intros H%notify_final; by apply Hfin
            | intros H%notify_exited; by apply Hex
            | intros H%notify_predicate; by apply Hpred
            | intros H; by apply notify_wakes in H ].
  - destruct Hinv as [Hq Hf Hs Hfin Hex Hpred Hwait Hdes Hbuf].
    destruct (owner s) eqn:Ho; try done.
    destruct (worker s) eqn:Hpc; try done.
    unfold ofstream_close.
    destruct (is_open _); [destruct (fs_file _)|];
      intros [= <-]; split; cbn; try other_pc; by left.
Qed.

Lemma reachable_invariant (now : tm) (w : World) (s : System) :
  reachable now w s → invariant s.
Proof.
  induction 1 as [|s l s' _ IH Hexec]; [apply invariant_initial|].
  by apply (invariant_step l s).
Qed.

Lemma run_reachable (now : tm) (w : World) (ls : list Label) (s s' : System) :
  reachable now w s → run ls s = Some s' → reachable now w s'.
Proof.
  revert s; induction ls as [|l ls IH]; intros s Hs; cbn.
  - by intros [= <-].
  - destruct (exec l s) as [s1|] eqn:Hexec; [|done]. cbn.
    apply IH. by apply (reachable_step now w s l).
Qed.

Lemma reinit_final_reachable : reachable noon empty_world reinit_final.
Proof.
  apply (run_reachable noon empty_world reinit_run (initial noon empty_world));
    [apply reachable_initial|].
  vm_compute. reflexivity.
Qed.

Lemma call_after_exit (c : Call) (s s' : System) :
  worker s = Exited → call c s = Some s' →
  worker s' = Exited ∧ handled s' = handled s
  ∧ console (world s') = console (world s)
  ∧ (calls_init (Api c) = false → world s' = world s).
Proof.
  intros Hpc.
  assert (Hlocked : locked_call c s = Some s' →
                    worker s' = Exited ∧ handled s' = handled s
                    ∧ console (world s') = console (world s)
                    ∧ (calls_init (Api c) = false → world s' = world s)).
  { unfold locked_call. rewrite Hpc. cbn [holds_lock].
    destruct c as [level fp append suffix|level|target|t|now level text f ln];
      try (by intros [= <-]).
    destruct (init_frame level fp append suffix (logger s) (world s))
      as (st & p & _ & Hcons & _).
    intros [= <-]. by cbn. }
  destruct c; try exact Hlocked.
  cbn. destruct (level_lt _ _); [|exact Hlocked]. by intros [= <-].
Qed.

(** Once the worker has returned, no transition calls [writeLog] or
    prints; a file changes only when [init] is called or when the
    destructor closes the stream, which writes out what the stream had
    buffered. *)
Lemma exited_step (l : Label) (s s' : System) :
  worker s = Exited → exec l s = Some s' →
  worker s' = Exited ∧ handled s' = handled s
  ∧ console (world s') = console (world s)
  ∧ (calls_init l = false →
     disk (world s') = disk (world s)
     ∨ l = DtorJoinClose
       ∧ ∃ path, fs_file (logFileStream (logger s)) = Some path
                 ∧ disk (world s')
                   = <[path := content (world s) path
                               ++ fs_buffer (logFileStream (logger s))]>
                       (disk (world s))).
Proof.
  intros Hpc Hexec. destruct l; cbn in Hexec.
  - destruct (owner s); try done;
      (destruct (call_after_exit c s s' Hpc Hexec) as (Hw & Hh & Hc & Hd);
       do 3 (split; [done|]); intros Hi; left; by rewrite (Hd Hi)).
  - destruct (owner s), (notifying s); try done; injection Hexec as <-; cbn;
      rewrite Hpc; (do 3 (split; [done|])); intros _; by left.
  - unfold worker_step in Hexec. by rewrite Hpc in Hexec.
  - by rewrite Hpc in Hexec.
  - destruct (owner s); try done. injection Hexec as <-. cbn.
    do 3 (split; [done|]). intros _. by left.
  - destruct (owner s); try done. injection Hexec as <-. cbn. rewrite Hpc.
    do 3 (split; [done|]). intros _. by left.
  - destruct (owner s); try done. rewrite Hpc in Hexec.
    destruct (is_open _); cbn in Hexec.
    + unfold ofstream_close in Hexec.
      destruct (fs_file _) as [path|] eqn:Hp; injection Hexec as <-; cbn;
        (do 3 (split; [done|])); intros _; [right|by left].
      split; [done|]. by exists path.
    + injection Hexec as <-. cbn. do 3 (split; [done|]). intros _. by left.
Qed.

Lemma exited_run (ls : list Label) (s s' : System) :
  worker s = Exited → run ls s = Some s' →
  worker s' = Exited ∧ handled s' = handled s
  ∧ console (world s') = console (world s).
Proof.
  revert s. induction ls as [|l ls IH]; intros s Hpc; cbn.
  - by intros [= <-].
  - destruct (exec l s) as [s1|] eqn:Hexec; [|done]. cbn. intros Hrun.
    destruct (exited_step l s s1 Hpc Hexec) as (Hw & Hh & Hc & _).
    destruct (IH s1 Hw Hrun) as (Hw' & Hh' & Hc').
    by rewrite Hh', Hc', Hh, Hc.
Qed.

(** *** What [writeLog] puts out *)







Lemma writeLog_pending (msg : LogMessage) (lg : Logger) (w : World) (path : str) :
  has_bit (outputTarget lg) File = true →
  fs_file (logFileStream lg) = Some path → fs_fail (logFileStream lg) = false →
  pending_content (writeLog msg lg w).1 (writeLog msg lg w).2 path
  = pending_content lg w path ++ log_line (formatTemplate lg) msg
  ∧ disk (writeLog msg lg w).2 !! path
    = Some (pending_content lg w path ++ log_line (formatTemplate lg) msg).
Proof.
  intros Hf Hp Hg.
  destruct (writeLog_open msg lg w path Hf Hp Hg) as [Hd Hs].
  unfold pending_content, log_line, content. rewrite Hd, Hs. cbn.
  by rewrite app_nil_r, <- !app_assoc.
Qed.










(** *** The worker running alone *)

Lemma run_app (l1 l2 : list Label) (s : System) :
  run (l1 ++ l2) s = run l1 s ≫= run l2.
Proof.
  revert s; induction l1 as [|l l1 IH]; intros s; cbn; [done|].
  destruct (exec l s) as [s1|]; cbn; [apply IH|done].
Qed.

Lemma worker_steps_trans (a b : nat) (s s1 s2 : System) :
  run (replicate a WorkerStep) s = Some s1 →
  run (replicate b WorkerStep) s1 = Some s2 →
  run (replicate (a + b) WorkerStep) s = Some s2.
Proof. intros Ha Hb. by rewrite replicate_add, run_app, Ha. Qed.

(** The loop of lines 262-270, run by the worker alone. *)
Lemma inner_loop_run (q : list LogMessage) (s : System) :
  worker s = AtInnerTest → messageQueue (logger s) = q →
  ∃ s', run (replicate (3 * length q) WorkerStep) s = Some s'
        ∧ worker s' = AtInnerTest ∧ messageQueue (logger s') = []
        ∧ exitFlag (logger s') = exitFlag (logger s)
        ∧ handled s' = handled s ++ q
        ∧ pushed s' = pushed s ∧ owner s' = owner s.
Proof.
  revert s. induction q as [|msg q IH]; intros s Hpc Hq.
  - exists s. cbn. by rewrite app_nil_r.
  - destruct s as [[lv tg st su pa qu ef ft] wd pc ow nt pu ha ps].
    cbn in Hpc, Hq. subst pc qu.
    set (s1 := mkSystem (mkLogger lv tg st su pa q ef ft) wd (Writing msg)
                 ow nt pu ha ps).
    destruct (invariant_do_write msg s1) as (st' & w' & Hwrite & _).
    cbn in Hwrite.
    set (s3 := mkSystem (mkLogger lv tg st' su pa q ef ft) w' AtInnerTest
                 ow nt pu (ha ++ [msg]) ps).
    destruct (IH s3 eq_refl eq_refl) as (s' & Hrun & Hw & Hqueue & Hflag & Hh & Hp & Ho).
    exists s'. split.
    + replace (3 * length (msg :: q)) with (3 + 3 * length q) by (cbn; lia).
      apply (worker_steps_trans 3 _ _ s3); [|done].
      cbn. change (do_write msg _) with (do_write msg s1).
      by rewrite Hwrite.
    + cbn in *. by rewrite Hh, <- app_assoc.
Qed.

(** The loop of lines 275-278. *)
Lemma final_loop_run (q : list LogMessage) (s : System) :
  worker s = FinalDrain → messageQueue (logger s) = q →
  ∃ s', run (replicate (S (length q)) WorkerStep) s = Some s'
        ∧ worker s' = Exited ∧ messageQueue (logger s') = []
        ∧ handled s' = handled s ++ q
        ∧ pushed s' = pushed s ∧ owner s' = owner s.
Proof.
  revert s. induction q as [|msg q IH]; intros s Hpc Hq.
  - destruct s as [[lv tg st su pa qu ef ft] wd pc ow nt pu ha ps].
    cbn in Hpc, Hq. subst pc qu. eexists. split; [reflexivity|].
    cbn. by rewrite app_nil_r.
  - destruct s as [[lv tg st su pa qu ef ft] wd pc ow nt pu ha ps].
    cbn in Hpc, Hq. subst pc qu.
    set (s0 := mkSystem (mkLogger lv tg st su pa (msg :: q) ef ft) wd
                 FinalDrain ow nt pu ha ps).
    destruct (invariant_do_write msg s0) as (st' & w' & Hwrite & _).
    cbn in Hwrite.
    set (s1 := mkSystem (mkLogger lv tg st' su pa q ef ft) w' FinalDrain
                 ow nt pu (ha ++ [msg]) ps).
    destruct (IH s1 eq_refl eq_refl) as (s' & Hrun & Hw & Hqueue & Hh & Hp & Ho).
    exists s'. split.
    + change (S (length (msg :: q))) with (1 + S (length q)).
      apply (worker_steps_trans 1 _ _ s1); [|done].
      cbn. change (do_write msg _) with (do_write msg s0).
      by rewrite Hwrite.
    + cbn in *. by rewrite Hh, <- app_assoc.
Qed.

(** A worker that neither waits nor has returned writes, running alone,
    the message it has popped and the messages in the queue. *)
Lemma worker_catches_up (s : System) :
  worker s ≠ AboutToBlock → worker s ≠ Blocked → worker s ≠ Exited →
  ∃ n s', n ≤ 3 * length (messageQueue (logger s)) + 3
          ∧ run (replicate n WorkerStep) s = Some s'
          ∧ handled s'
            = handled s ++ in_flight (worker s) ++ messageQueue (logger s)
          ∧ pushed s' = pushed s.
Proof.
  intros Hab Hbl Hex.
  destruct s as [[lv tg st su pa qu ef ft] wd pc ow nt pu ha ps].
  cbn in Hab, Hbl, Hex.
  set (inner := mkSystem (mkLogger lv tg st su pa qu ef ft) wd AtInnerTest
                  ow nt pu ha ps).
  set (final := mkSystem (mkLogger lv tg st su pa qu ef ft) wd FinalDrain
                  ow nt pu ha ps).
  destruct (inner_loop_run qu inner eq_refl eq_refl)
    as (si & Hruni & _ & _ & _ & Hhi & Hpi & _).
  destruct (final_loop_run qu final eq_refl eq_refl)
    as (sf & Hrunf & _ & _ & Hhf & Hpf & _).
  cbn in Hruni, Hhi, Hpi, Hrunf, Hhf, Hpf.
  assert (Hidle : ∀ pc', in_flight pc' = [] → qu = [] →
            ∃ n s', n ≤ 3 * length qu + 3
              ∧ run (replicate n WorkerStep)
                  (mkSystem (mkLogger lv tg st su pa qu ef ft) wd pc'
                     ow nt pu ha ps) = Some s'
              ∧ handled s' = ha ++ in_flight pc' ++ qu ∧ pushed s' = pu).
  { intros pc' Hin ->. eexists 0, _. split; [lia|]. split; [reflexivity|].
    cbn. by rewrite Hin, app_nil_r. }
  destruct pc as [| | | | | | |msg| | | |]; try done; cbn.
  - (* line 258 *)
    destruct (decide (qu = [])) as [Hqu|Hqu]; [by apply Hidle|].
    destruct ef.
    + exists (2 + S (length qu)), sf. split; [lia|]. split; [|done].
      by apply (worker_steps_trans 2 _ _ final).
    + exists (3 + 3 * length qu), si. split; [lia|]. split; [|done].
      apply (worker_steps_trans 3 _ _ inner); [|done].
      cbn. by rewrite bool_decide_eq_false_2.
  - (* line 259 *)
    destruct (decide (qu = [])) as [Hqu|Hqu]; [by apply Hidle|].
    exists (2 + 3 * length qu), si. split; [lia|]. split; [|done].
    apply (worker_steps_trans 2 _ _ inner); [|done].
    cbn. by rewrite bool_decide_eq_false_2.
  - (* line 260, the predicate *)
    destruct (decide (qu = [])) as [Hqu|Hqu]; [by apply Hidle|].
    exists (1 + 3 * length qu), si. split; [lia|]. split; [|done].
    apply (worker_steps_trans 1 _ _ inner); [|done].
    cbn. by rewrite bool_decide_eq_false_2.
  - (* line 260, after the wait *)
    destruct (decide (qu = [])) as [Hqu|Hqu]; [by apply Hidle|].
    exists (2 + 3 * length qu), si. split; [lia|]. split; [|done].
    apply (worker_steps_trans 2 _ _ inner); [|done].
    cbn. by rewrite bool_decide_eq_false_2.
  - (* line 262 *)
    exists (3 * length qu), si. split; [lia|]. by split.
  - (* line 267 *)
    set (s0 := mkSystem (mkLogger lv tg st su pa qu ef ft) wd (Writing msg)
                 ow nt pu ha ps).
    destruct (invariant_do_write msg s0) as (st' & w' & Hwrite & _).
    cbn in Hwrite.
    set (inner' := mkSystem (mkLogger lv tg st' su pa qu ef ft) w'
                     AtInnerTest ow nt pu (ha ++ [msg]) ps).
    destruct (inner_loop_run qu inner' eq_refl eq_refl)
      as (si' & Hruni' & _ & _ & _ & Hhi' & Hpi' & _).
    cbn in Hruni', Hhi', Hpi'.
    exists (2 + 3 * length qu), si'. split; [lia|]. split.
    + apply (worker_steps_trans 2 _ _ inner'); [|done].
      cbn. change (do_write msg _) with (do_write msg s0).
      by rewrite Hwrite.
    + by rewrite Hhi', <- app_assoc.
  - (* line 269 *)
    exists (1 + 3 * length qu), si. split; [lia|]. split; [|done].
    by apply (worker_steps_trans 1 _ _ inner).
  - (* line 274 *)
    exists (1 + S (length qu)), sf. split; [lia|]. split; [|done].
    by apply (worker_steps_trans 1 _ _ final).
  - (* line 275 *)
    exists (S (length qu)), sf. split; [lia|]. by split.
Qed.

(** C2: in every state of every run, the messages passed to [writeLog]
    so far are, in the same order and each once, the first of the
    messages pushed so far; the messages that follow are the one the
    worker has popped and is about to write, if any, and the content of
    the queue from front to back.  As long as the worker has not returned,
    the worker and the producers that have a notification to give can go
    on, in a bounded number of transitions of their own, to a state in
    which the messages passed to [writeLog] are all the messages pushed,
    in the order of the pushes.  Once the worker has returned, no run
    passes another message to [writeLog]. *)
Theorem fifo_order (now : tm) (w : World) (s : System) :
  reachable now w s →
  pushed s = handled s ++ in_flight (worker s) ++ messageQueue (logger s)
  ∧ (worker s ≠ Exited →
     ∃ ls s', Forall (λ l, delivering l = true) ls
              ∧ length ls ≤ 3 * length (messageQueue (logger s)) + 4
              ∧ run ls s = Some s'
              ∧ handled s' = pushed s ∧ pushed s' = pushed s)
  ∧ (worker s = Exited →
     ∀ ls s', run ls s = Some s' → handled s' = handled s).
Proof.
  intros Hreach.
  destruct (reachable_invariant now w s Hreach)
    as [Hq _ _ _ _ Hpred Hwait Hdes _].
  split; [done|]. split.
  - intros Hex.
    assert (Hgo : worker s ≠ AboutToBlock → worker s ≠ Blocked →
              ∃ ls s', Forall (λ l, delivering l = true) ls
                ∧ length ls ≤ 3 * length (messageQueue (logger s)) + 4
                ∧ run ls s = Some s'
                ∧ handled s' = pushed s ∧ pushed s' = pushed s).
    { intros Hab Hbl.
      destruct (worker_catches_up s Hab Hbl Hex) as (n & s' & Hn & Hrun & Hh & Hp).
      exists (replicate n WorkerStep), s'.
      split; [by apply Forall_replicate|].
      rewrite length_replicate. split; [lia|]. split; [done|].
      split; [by rewrite Hh, Hq|done]. }
    destruct (worker s) eqn:Hpc; try (apply Hgo; discriminate).
    + (* the predicate was false *)
      exists [], s. split; [constructor|]. split; [cbn; lia|].
      split; [done|]. split; [|done].
      rewrite Hq, (Hpred eq_refl). cbn. by rewrite app_nil_r.
    + (* the worker waits *)
      destruct (messageQueue (logger s)) as [|m q] eqn:Hqu.
      { exists [], s. split; [constructor|]. split; [cbn; lia|].
        split; [done|]. split; [|done]. rewrite Hq. cbn. by rewrite app_nil_r. }
      specialize (Hwait eq_refl). cbn in Hwait.
      destruct (notifying s) as [|k] eqn:Hk; [lia|].
      set (s1 := mkSystem (logger s) (world s) Woken (owner s) k (pushed s)
                   (handled s) (pushed_at_signal s)).
      assert (Hnotify : exec ProducerNotify s = Some s1).
      { cbn. rewrite Hk, Hpc. subst s1. destruct (owner s) eqn:Ho; try done.
        first [by specialize (Hdes Ho)|by specialize (Hdes eq_refl)]. }
      destruct (worker_catches_up s1) as (n & s' & Hn & Hrun & Hh & Hp);
        [done..|].
      exists (ProducerNotify :: replicate n WorkerStep), s'.
      split; [constructor; [done|by apply Forall_replicate]|].
      cbn [length]. rewrite length_replicate.
      cbn in Hn, Hh, Hp. rewrite Hqu in Hn, Hh.
      split; [cbn in *; lia|].
      split; [cbn [run]; by rewrite Hnotify|].
      split; [|done].
      by rewrite Hh, Hq.
  - intros Hpc ls s' Hrun. by apply (exited_run ls s s').
Qed.

Lemma three_queued_reachable : reachable noon empty_world three_queued.
Proof.
  apply (run_reachable noon empty_world
           [WorkerStep; WorkerStep; WorkerStep; WorkerStep;
            Api (CallLog noon INFO "one" "f.cpp" 1);
            Api (CallLog noon ERROR_ "two" "f.cpp" 2);
            Api (CallLog noon DEBUG "three" "g.cpp" 3)]
           (initial noon empty_world)); [apply reachable_initial|].
  vm_compute. reflexivity.
Qed.

Lemma fifo_order_witness :
  ∃ ls s', Forall (λ l, delivering l = true) ls
           ∧ length ls ≤ 3 * 3 + 4
           ∧ run ls three_queued = Some s'
           ∧ handled s'
             = [mkLogMessage INFO "one" "f.cpp" 1 (getTimestamp noon);
                mkLogMessage ERROR_ "two" "f.cpp" 2 (getTimestamp noon);
                mkLogMessage DEBUG "three" "g.cpp" 3 (getTimestamp noon)].
Proof.
  destruct (fifo_order noon empty_world three_queued three_queued_reachable)
    as (_ & Hgo & _).
  destruct Hgo as (ls & s' & Hls & Hlen & Hrun & Hh & _).
  - vm_compute. discriminate.
  - exists ls, s'. split; [exact Hls|]. split; [exact Hlen|].
    split; [exact Hrun|]. exact Hh.
Defined.

(** C2, the counterexample: a message logged after the worker has
    returned is pushed on the queue and never passed to [writeLog],
    whatever happens afterwards. *)
Lemma late_message_never_written :
  run late_message_run (initial noon empty_world) = Some after_late_message
  ∧ pushed after_late_message = [sample_message]
  ∧ handled after_late_message = []
  ∧ ∀ ls s', run ls after_late_message = Some s' → handled s' = [].
Proof.
  split; [vm_compute; reflexivity|]. split; [vm_compute; reflexivity|].
  split; [vm_compute; reflexivity|].
  intros ls s' Hrun.
  by destruct (exited_run ls after_late_message s' eq_refl Hrun) as (_ & -> & _).
Qed.

(** The destructor sets the flag and notifies without holding the mutex.
    When both happen between the evaluation of the predicate of line 260
    and the wait, the notification finds nobody waiting: the worker then
    waits with the flag set, and [join] waits for the worker.  Only a
    later push or a wake-up that nobody asked for lets the two go on. *)
Lemma shutdown_can_miss_wakeup :
  ∃ s, run missed_wakeup_run (initial noon empty_world) = Some s
       ∧ worker s = Blocked ∧ owner s = Joining
       ∧ exitFlag (logger s) = true
       ∧ exec WorkerStep s = None ∧ exec DtorNotify s = None
       ∧ exec DtorJoinClose s = None.
Proof. eexists. split; [by vm_compute|]. by vm_compute. Qed.

(** ** The five passes and the single scan *)

Lemma starts_with_cons (a b : ascii) (p s : str) :
  starts_with (a :: p) (b :: s) = Ascii.eqb a b && starts_with p s.
Proof. done. Qed.

Lemma starts_with_short (p s : str) :
  length s < length p → starts_with p s = false.
Proof.
  revert s; induction p as [|a p IH]; intros [|b s]; cbn; try lia; try done.
  intros H. rewrite IH by lia. apply andb_false_r.
Qed.

Lemma find0_short (s from : str) : length s < length from → find0 s from = None.
Proof.
  induction s as [|b s IH]; intros H; cbn.
  - by rewrite starts_with_short.
  - rewrite starts_with_short by done. rewrite IH; [done|]. cbn in H. lia.
Qed.

Lemma replaceAll_short (s from to : str) :
  length s < length from → replaceAll s from to = s.
Proof.
  intros H. apply replaceAll_absent. unfold find. cbn.
  change (drop 0 s) with s. by rewrite find0_short.
Qed.

(** A position where [from] does not start is stepped over. *)
Lemma replaceAll_step_over (c : ascii) (s from to : str) :
  from ≠ [] → starts_with from (c :: s) = false →
  replaceAll (c :: s) from to = c :: replaceAll s from to.
Proof.
  intros Hne Hc.
  assert (Hf : find (c :: s) from 0 = S <$> find s from 0).
  { unfold find. cbn. change (drop 0 ?l) with l. rewrite Hc.
    by destruct (find0 s from). }
  destruct (find s from 0) as [p|] eqn:Hp.
  - change (find (c :: s) from 0 = Some (S p)) in Hf.
    by rewrite (replaceAll_first _ _ _ _ Hne Hf), (replaceAll_first _ _ _ _ Hne Hp).
  - change (find (c :: s) from 0 = None) in Hf. by rewrite !replaceAll_absent.
Qed.

Lemma inert_spec (later v : str) :
  inert later v = true →
  v ≠ [] ∧ ("{"%char ∉ v) ∧ ("}"%char ∉ v) ∧ ∀ x, x ∈ later → v ≠ [x].
Proof.
  unfold inert. rewrite !andb_true_iff, !forallb_forall, negb_true_iff.
  intros [[Hb Hn] Hl]. apply bool_decide_eq_false in Hn.
  split; [done|]. split; [|split].
  - intros Hin%list_elem_of_In. specialize (Hb _ Hin). by cbn in Hb.
  - intros Hin%list_elem_of_In. specialize (Hb _ Hin). by cbn in Hb.
  - intros x Hx%list_elem_of_In. specialize (Hl _ Hx).
    apply negb_true_iff, bool_decide_eq_false in Hl. done.
Qed.

Lemma inert_weaken (later v : str) (k : ascii) :
  inert later v = true → k ∈ later → inert [k] v = true.
Proof.
  unfold inert. rewrite !andb_true_iff, !forallb_forall.
  intros [[Hb Hn] Hl] Hk. split; [done|].
  intros x [<-|[]]. apply Hl. by apply list_elem_of_In.
Qed.

Lemma render_three (σ : ascii → option str) (c x y : ascii) (rest' : str) :
  render σ (c :: x :: y :: rest')
  = match (if Ascii.eqb c "{" && Ascii.eqb y "}" then σ x else None) with
    | Some v => v ++ render σ rest'
    | None => c :: render σ (x :: y :: rest')
    end.
Proof. done. Qed.

Lemma render_cons_other (σ : ascii → option str) (c : ascii) (rest : str) :
  c ≠ "{"%char → render σ (c :: rest) = c :: render σ rest.
Proof.
  intros Hc%Ascii.eqb_neq. destruct rest as [|x [|y rest']]; try done.
  by rewrite render_three, Hc.
Qed.

Lemma render_ext (σ τ : ascii → option str) (tmpl : str) :
  (∀ x, σ x = τ x) → render σ tmpl = render τ tmpl.
Proof.
  intros Heq. remember (length tmpl) as n eqn:Hn.
  revert tmpl Hn. induction n as [n IH] using lt_wf_ind. intros tmpl ->.
  destruct tmpl as [|c [|x [|y rest']]]; try done.
  rewrite !render_three, Heq.
  destruct (if Ascii.eqb c "{" && Ascii.eqb y "}" then τ x else None).
  - f_equal. apply (IH (length rest')); [cbn; lia|done].
  - f_equal. apply (IH (length (x :: y :: rest'))); [cbn; lia|done].
Qed.

(** With no value assigned the scan copies the template. *)
Lemma render_none (tmpl : str) : render (λ _, None) tmpl = tmpl.
Proof.
  induction tmpl as [|c rest IH]; [done|].
  destruct rest as [|x [|y rest']]; try done.
  rewrite render_three.
  destruct (Ascii.eqb c "{" && Ascii.eqb y "}"); by rewrite IH.
Qed.

Section Passes.

Variable σ : ascii → option str.
Variable k : ascii.
Hypothesis k_letter : k ≠ "{"%char.
Hypothesis k_free : σ k = None.
Hypothesis values_inert : ∀ x u, σ x = Some u → inert [k] u = true.

(** The scan does not bring a closing brace to the front. *)
Lemma render_close_head (s t : str) :
  render σ s = "}"%char :: t → ∃ s', s = "}"%char :: s'.
Proof.
  destruct s as [|c rest]; [done|].
  destruct (decide (c = "{"%char)) as [->|Hc].
  - destruct rest as [|x [|y rest']]; cbn; try done.
    destruct (Ascii.eqb y "}"); [|done].
    destruct (σ x) as [u|] eqn:Hu; [|done].
    apply values_inert, inert_spec in Hu as (Hne & _ & Hclose & _).
    destruct u as [|u0 u]; [done|]. cbn. intros [= -> _].
    exfalso. apply Hclose. by left.
  - rewrite render_cons_other by done. intros [= -> _]. eauto.
Qed.

(** Behind an opening brace that the scan copied, the letter [k] and a
    closing brace can only come from the template. *)
Lemma key_after_brace (rest : str) :
  starts_with [k; "}"%char] (render σ rest) = true →
  ∃ rest', rest = k :: "}"%char :: rest'.
Proof.
  intros H%starts_with_inv. cbn in H.
  destruct rest as [|a rest1]; [done|].
  destruct (decide (a = "{"%char)) as [->|Ha].
  - destruct rest1 as [|b [|d rest'']]; cbn in H; try by injection H.
    destruct (Ascii.eqb d "}"); [|by injection H].
    destruct (σ b) as [u|] eqn:Hu; [|by injection H].
    apply values_inert, inert_spec in Hu as (Hne & _ & Hclose & Hk).
    destruct u as [|u0 [|u1 u]]; [done| |].
    + cbn in H. injection H as -> _. exfalso. apply (Hk k); [by left|done].
    + cbn in H. injection H as _ ->. exfalso. apply Hclose. right. by left.
  - rewrite render_cons_other in H by done. injection H as -> H.
    apply render_close_head in H as [s' ->]. eauto.
Qed.

(** A pass for the letter [k] over a scan that left [k] alone is the scan
    that also replaces [k]. *)
Lemma pass_render (v : str) (tmpl : str) :
  replaceAll (render σ tmpl) (placeholder k) v = render (extend k v σ) tmpl.
Proof.
  remember (length tmpl) as n eqn:Hn.
  revert tmpl Hn. induction n as [n IH] using lt_wf_ind. intros tmpl ->.
  assert (Hkey : placeholder k ≠ []) by done.
  destruct tmpl as [|c rest]; [apply (replaceAll_short []); cbn; lia|].
  assert (IHrest : replaceAll (render σ rest) (placeholder k) v
                   = render (extend k v σ) rest)
    by (apply (IH (length rest)); [cbn; lia|done]).
  destruct (decide (c = "{"%char)) as [->|Hc].
  2: { rewrite !render_cons_other by done.
       rewrite replaceAll_step_over, IHrest; [done..|].
       unfold placeholder. rewrite starts_with_cons.
       apply Ascii.eqb_neq in Hc. rewrite Ascii.eqb_sym in Hc. by rewrite Hc. }
  (* what the pass does when the scan copied the brace *)
  assert (Hcopy : (∀ rest', rest ≠ k :: "}"%char :: rest') →
                  replaceAll ("{"%char :: render σ rest) (placeholder k) v
                  = "{"%char :: render (extend k v σ) rest).
  { intros Hrest. rewrite replaceAll_step_over, IHrest; [done..|].
    unfold placeholder. rewrite starts_with_cons.
    destruct (starts_with [k; "}"%char] (render σ rest)) eqn:Hs; [|done].
    apply key_after_brace in Hs as [rest' ->]. by destruct (Hrest rest'). }
  destruct rest as [|x [|y rest']].
  - apply (replaceAll_short ["{"%char]). cbn. lia.
  - apply (replaceAll_short ["{"%char; x]). cbn. lia.
  - rewrite !render_three, !Ascii.eqb_refl. unfold extend at 1.
    destruct (Ascii.eqb y "}") eqn:Hy; cbv beta iota delta [andb].
    2: { apply Hcopy. intros r [= -> ->]. by rewrite Ascii.eqb_refl in Hy. }
    apply Ascii.eqb_eq in Hy as ->.
    assert (IHrest' : replaceAll (render σ rest') (placeholder k) v
                      = render (extend k v σ) rest')
      by (apply (IH (length rest')); [cbn; lia|done]).
    destruct (Ascii.eqb x k) eqn:Hx.
    + apply Ascii.eqb_eq in Hx as ->. rewrite k_free. cbv beta iota.
      assert (Hk : render σ (k :: "}"%char :: rest')
                   = k :: "}"%char :: render σ rest').
      { rewrite render_cons_other by done. by rewrite render_cons_other. }
      rewrite Hk.
      change ("{"%char :: k :: "}"%char :: render σ rest')
        with (placeholder k ++ render σ rest').
      by rewrite replaceAll_here, IHrest'.
    + destruct (σ x) as [u|] eqn:Hu.
      * apply values_inert, inert_spec in Hu as (_ & Hopen & _ & _).
        cbv beta iota. rewrite <- IHrest'. unfold placeholder.
        by rewrite replaceAll_skip.
      * apply Hcopy. intros r [= -> _]. by rewrite Ascii.eqb_refl in Hx.
Qed.

End Passes.

Lemma extend_values (P : str → Prop) (k : ascii) (v : str)
  (σ : ascii → option str) :
  (∀ x u, σ x = Some u → P u) → P v →
  ∀ x u, extend k v σ x = Some u → P u.
Proof.
  intros Hσ Hv x u. unfold extend. destruct (Ascii.eqb x k); [|apply Hσ].
  by intros [= <-].
Qed.

Lemma levelToString_inert (l : LogLevel) : inert "flm" (levelToString l) = true.
Proof. by destruct l. Qed.

Lemma to_string_inert (n : Z) : inert "m" (to_string n) = true.
Proof.
  pose proof (to_string_numeric n) as Hnum.
  pose proof (to_string_nonempty n) as Hne.
  rewrite Forall_forall in Hnum.
  unfold inert. rewrite !andb_true_iff, !forallb_forall. split; [split|].
  - intros c Hc%list_elem_of_In. specialize (Hnum c Hc).
    destruct (Ascii.eqb c "{") eqn:Ho;
      [apply Ascii.eqb_eq in Ho as ->; by vm_compute in Hnum|].
    destruct (Ascii.eqb c "}") eqn:Hcl;
      [apply Ascii.eqb_eq in Hcl as ->; by vm_compute in Hnum|].
    done.
  - by apply negb_true_iff, bool_decide_eq_false.
  - intros x [<-|[]]. apply negb_true_iff, bool_decide_eq_false.
    intros Heq. specialize (Hnum "m"%char). rewrite Heq in Hnum.
    specialize (Hnum ltac:(by left)). by vm_compute in Hnum.
Qed.

Lemma placeholder_value_passes (msg : LogMessage) (x : ascii) :
  extend "m" (message msg)
    (extend "l" (to_string (line msg))
       (extend "f" (file msg)
          (extend "L" (levelToString (level msg))
             (extend "t" (timestamp msg) (λ _, None))))) x
  = placeholder_value msg x.
Proof.
  unfold extend, placeholder_value.
  destruct (Ascii.eqb x "t") eqn:Ht; [by apply Ascii.eqb_eq in Ht as ->|].
  destruct (Ascii.eqb x "L") eqn:HL; [by apply Ascii.eqb_eq in HL as ->|].
  destruct (Ascii.eqb x "f") eqn:Hf; [by apply Ascii.eqb_eq in Hf as ->|].
  destruct (Ascii.eqb x "l") eqn:Hl; [by apply Ascii.eqb_eq in Hl as ->|].
  by destruct (Ascii.eqb x "m").
Qed.

(** The five passes give what the single scan gives, as long as the
    timestamp and the file name are inert for the passes that follow
    them. *)
Lemma passes_are_scan (tmpl : str) (msg : LogMessage) :
  inert "Lflm" (timestamp msg) = true → inert "lm" (file msg) = true →
  formatLogMessage tmpl msg = render_spec tmpl msg.
Proof.
  intros HT HF. unfold formatLogMessage, render_spec.
  rewrite <- (render_ext _ _ tmpl (placeholder_value_passes msg)).
  set (σ0 := λ _ : ascii, @None str).
  set (σ1 := extend "t" (timestamp msg) σ0).
  set (σ2 := extend "L" (levelToString (level msg)) σ1).
  set (σ3 := extend "f" (file msg) σ2).
  set (σ4 := extend "l" (to_string (line msg)) σ3).
  pose proof (levelToString_inert (level msg)) as HL.
  pose proof (to_string_inert (line msg)) as Hl.
  assert (H1 : ∀ k, k ∈ ("Lflm" : str) →
               ∀ x u, σ1 x = Some u → inert [k] u = true).
  { intros k Hk. apply extend_values; [done|]. by apply (inert_weaken "Lflm"). }
  assert (H2 : ∀ k, k ∈ ("flm" : str) →
               ∀ x u, σ2 x = Some u → inert [k] u = true).
  { intros k Hk. apply extend_values.
    - apply H1. by right.
    - by apply (inert_weaken "flm"). }
  assert (H3 : ∀ k, k ∈ ("lm" : str) →
               ∀ x u, σ3 x = Some u → inert [k] u = true).
  { intros k Hk. apply extend_values.
    - apply H2. by right.
    - by apply (inert_weaken "lm"). }
  assert (H4 : ∀ k, k ∈ ("m" : str) →
               ∀ x u, σ4 x = Some u → inert [k] u = true).
  { intros k Hk. apply extend_values.
    - apply H3. by right.
    - by apply (inert_weaken "m"). }
  rewrite <- (render_none tmpl) at 1. fold σ0.
  change ("{t}" : str) with (placeholder "t").
  change ("{L}" : str) with (placeholder "L").
  change ("{f}" : str) with (placeholder "f").
  change ("{l}" : str) with (placeholder "l").
  change ("{m}" : str) with (placeholder "m").
  rewrite (pass_render σ0 "t"); [|done..]. fold σ1.
  rewrite (pass_render σ1 "L"); [|done|done|apply H1; by left]. fold σ2.
  rewrite (pass_render σ2 "f"); [|done|done|apply H2; by left]. fold σ3.
  rewrite (pass_render σ3 "l"); [|done|done|apply H3; by left]. fold σ4.
  by rewrite (pass_render σ4 "m"); [|done|done|apply H4; by left].
Qed.

(** A template without any of the five placeholders is returned as it
    is, whatever the message. *)
Lemma no_placeholder_unchanged (tmpl : str) (msg : LogMessage) :
  (∀ ph, ph ∈ placeholders → find tmpl ph 0 = None) →
  formatLogMessage tmpl msg = tmpl.
Proof.
  intros Hnone. unfold formatLogMessage.
  rewrite (replaceAll_absent tmpl "{t}")
    by (apply Hnone; unfold placeholders; rewrite !elem_of_cons; tauto).
  rewrite (replaceAll_absent tmpl "{L}")
    by (apply Hnone; unfold placeholders; rewrite !elem_of_cons; tauto).
  rewrite (replaceAll_absent tmpl "{f}")
    by (apply Hnone; unfold placeholders; rewrite !elem_of_cons; tauto).
  rewrite (replaceAll_absent tmpl "{l}")
    by (apply Hnone; unfold placeholders; rewrite !elem_of_cons; tauto).
  apply replaceAll_absent, Hnone. unfold placeholders.
  rewrite !elem_of_cons. tauto.
Qed.

(** C5, as the code has it: the five placeholders are replaced by five
    passes over the whole string, in the order t, L, f, l, m.  For every
    template and every message whose timestamp and file name hold no
    brace, are not empty and are not the single letter of a later pass,
    the result is that of one scan of the template from left to right in
    which a value put in is not scanned again: nothing in the message
    text or in another value is substituted, and what is not one of the
    five placeholders is copied.  A template that holds none of the five
    placeholders is returned unchanged for every message. *)
Theorem five_passes_single_scan (tmpl : str) (msg : LogMessage) :
  (inert "Lflm" (timestamp msg) = true → inert "lm" (file msg) = true →
   formatLogMessage tmpl msg = render_spec tmpl msg)
  ∧ ((∀ ph, ph ∈ placeholders → find tmpl ph 0 = None) →
     formatLogMessage tmpl msg = tmpl).
Proof.
  split; [apply passes_are_scan|apply no_placeholder_unchanged].
Qed.

Lemma five_passes_single_scan_witness :
  formatLogMessage "{m} {x} {f}"
    (mkLogMessage INFO "{t}{m}" "a.cpp" 10 "2024-01-01 12:00:00")
  = render_spec "{m} {x} {f}"
      (mkLogMessage INFO "{t}{m}" "a.cpp" 10 "2024-01-01 12:00:00")
  ∧ formatLogMessage "{x} {M}"
      (mkLogMessage INFO "{t}{m}" "a.cpp" 10 "2024-01-01 12:00:00")
    = ("{x} {M}" : str).
Proof.
  split.
  - refine (proj1 (five_passes_single_scan _ _) _ _); reflexivity.
  - refine (proj2 (five_passes_single_scan _ _) _).
    intros ph. unfold placeholders. rewrite !elem_of_cons, elem_of_nil.
    intros [->|[->|[->|[->|[->|[]]]]]]; reflexivity.
Defined.

(** C5 as stated fails: the file name {m} is put in by the third pass
    and replaced by the message text in the fifth, where one scan of the
    template leaves it. *)
Lemma placeholder_in_file_name_substituted :
  formatLogMessage "{f}"
    (mkLogMessage INFO "hello" "{m}" 10 "2024-01-01 12:00:00")
  = ("hello" : str)
  ∧ render_spec "{f}"
      (mkLogMessage INFO "hello" "{m}" 10 "2024-01-01 12:00:00")
    = ("{m}" : str)
  ∧ formatLogMessage "{f}"
      (mkLogMessage INFO "hello" "{m}" 10 "2024-01-01 12:00:00")
    ≠ render_spec "{f}"
        (mkLogMessage INFO "hello" "{m}" 10 "2024-01-01 12:00:00").
Proof. split; [|split]; by vm_compute. Qed.

(** * Further properties of the code *)

(** ** One pass of [replaceAll] *)

Lemma find0_least (s from : str) (i : nat) :
  find0 s from = Some i → ∀ j, j < i → starts_with from (drop j s) = false.
Proof.
  revert i; induction s as [|b s IH]; intros i; cbn [find0].
  - destruct (starts_with from []); [|done]. intros [= <-] j Hj. lia.
  - destruct (starts_with from (b :: s)) eqn:E.
    + intros [= <-] j Hj. lia.
    + destruct (find0 s from) as [i'|] eqn:Hi; [|done].
      intros [= <-] [|j] Hj; [done|]. cbn [drop]. apply (IH i' eq_refl). lia.
Qed.

Lemma find0_occurs (s from : str) (i : nat) :
  find0 s from = Some i → starts_with from (drop i s) = true.
Proof.
  revert i; induction s as [|b s IH]; intros i; cbn [find0].
  - destruct (starts_with from []) eqn:E; [|done]. by intros [= <-].
  - destruct (starts_with from (b :: s)) eqn:E; [by intros [= <-]|].
    destruct (find0 s from) as [i'|] eqn:Hi; [|done].
    intros [= <-]. cbn [drop]. by apply IH.
Qed.

(** The lambda [replaceAll], lines 176-182, for a pattern that is not
    empty: a string without the pattern is returned as it is; otherwise
    the pattern is replaced where it occurs first, no occurrence starting
    further left, the text before it is kept, the replacement is copied,
    and the rest of the result is the pass over what follows the
    occurrence: occurrences that overlap the replaced one or that the
    replacement brings about are not replaced. *)
Theorem replaceAll_leftmost (s from to : str) :
  from ≠ [] →
  match find s from 0 with
  | None => replaceAll s from to = s
  | Some p =>
      (∀ j, j < p → starts_with from (drop j s) = false)
      ∧ starts_with from (drop p s) = true
      ∧ replaceAll s from to
        = take p s ++ to ++ replaceAll (drop (p + length from) s) from to
  end.
Proof.
  intros Hne. destruct (find s from 0) as [p|] eqn:Hp.
  - split; [|split].
    + unfold find in Hp. cbn in Hp. change (drop 0 s) with s in Hp.
      destruct (find0 s from) as [i|] eqn:Hi; [|done].
      injection Hp as <-. by apply find0_least.
    + unfold find in Hp. cbn in Hp. change (drop 0 s) with s in Hp.
      destruct (find0 s from) as [i|] eqn:Hi; [|done].
      injection Hp as <-. by apply find0_occurs.
    + by apply replaceAll_first.
  - by apply replaceAll_absent.
Qed.

Lemma replaceAll_leftmost_witness :
  replaceAll "aaa{m}" "aa" "a"
  = take 0 "aaa{m}" ++ ("a" : str) ++ replaceAll (drop (0 + 2) "aaa{m}") "aa" "a".
Proof.
  refine (proj2 (proj2 (replaceAll_leftmost "aaa{m}" "aa" "a" _))).
  discriminate.
Defined.

(** ** Levels *)

(** [levelToString], lines 156-166: the six levels have six different
    names. *)
Theorem levelToString_injective (l1 l2 : LogLevel) :
  levelToString l1 = levelToString l2 → l1 = l2.
Proof. destruct l1, l2; (reflexivity || discriminate). Qed.

Lemma levelToString_injective_witness : WARNING = WARNING.
Proof. exact (levelToString_injective WARNING WARNING eq_refl). Defined.

(** [log], line 202: the filter is a threshold.  When a call with some
    level changes the logger, a call with a level at least as high pushes
    its message; and when a call leaves the logger as it is, so does a
    call with a lower level. *)
Theorem filter_is_threshold (now now' : tm) (L L' : LogLevel)
  (text text' f f' : str) (ln ln' : Z) (lg : Logger) :
  (level_value L ≤ level_value L')%Z →
  (log now L text f ln lg ≠ lg →
   log now' L' text' f' ln' lg
   = enqueueLog (mkLogMessage L' text' f' ln' (getTimestamp now')) lg)
  ∧ (log now' L' text' f' ln' lg = lg → log now L text f ln lg = lg).
Proof.
  intros Hle. unfold log, level_lt.
  destruct (level_value L <? level_value (currentLevel lg))%Z eqn:HL;
    destruct (level_value L' <? level_value (currentLevel lg))%Z eqn:HL';
    try done.
  - apply Z.ltb_ge in HL. apply Z.ltb_lt in HL'. lia.
  - split; [done|]. intros Heq. apply (f_equal messageQueue) in Heq.
    cbn in Heq. apply (f_equal length) in Heq. rewrite length_app in Heq.
    cbn in Heq. lia.
Qed.

Lemma filter_is_threshold_witness :
  log noon ERROR_ "b" "g.cpp" 2 (set_currentLevel INFO (Logger_new noon))
  = enqueueLog (mkLogMessage ERROR_ "b" "g.cpp" 2 (getTimestamp noon))
      (set_currentLevel INFO (Logger_new noon)).
Proof.
  refine (proj1 (filter_is_threshold noon noon WARNING ERROR_ "a" "b" "f.cpp"
                   "g.cpp" 1 2 (set_currentLevel INFO (Logger_new noon)) _) _).
  - vm_compute. discriminate.
  - vm_compute. discriminate.
Defined.

(** ** Timestamps *)

Lemma digit_eq (a b : nat) : digit a = digit b → a mod 10 = b mod 10.
Proof.
  unfold digit. intros H%(f_equal nat_of_ascii).
  pose proof (Nat.mod_upper_bound a 10 ltac:(lia)).
  pose proof (Nat.mod_upper_bound b 10 ltac:(lia)).
  rewrite !nat_ascii_embedding in H by lia. lia.
Qed.

Lemma two_digits_eq (a b : nat) :
  a < 100 → b < 100 → digit (a / 10) = digit (b / 10) → digit a = digit b →
  a = b.
Proof.
  intros Ha Hb Htens%digit_eq Hunits%digit_eq.
  assert (a / 10 < 10) by (apply Nat.Div0.div_lt_upper_bound; lia).
  assert (b / 10 < 10) by (apply Nat.Div0.div_lt_upper_bound; lia).
  rewrite !Nat.mod_small in Htens by done.
  rewrite (Nat.div_mod_eq a 10), (Nat.div_mod_eq b 10). lia.
Qed.

Lemma to_uint_not_Nil (n : nat) : Nat.to_uint n ≠ Decimal.Nil.
Proof.
  intros H. pose proof (DecimalNat.Unsigned.of_to n) as Hn.
  rewrite H in Hn. cbn in Hn. by subst n.
Qed.

Lemma decimal_inj (n m : nat) : decimal n = decimal m → n = m.
Proof.
  unfold decimal. intros H%(f_equal string_of_list_ascii).
  rewrite !string_of_list_ascii_of_string in H.
  apply (f_equal NilZero.uint_of_string) in H.
  rewrite !NilZero.usu in H by apply to_uint_not_Nil.
  injection H as H. by apply DecimalNat.Unsigned.to_uint_inj.
Qed.

Lemma four_digit_years :
  forallb (λ y, length (decimal (1900 + y)) =? 4) (seq 0 (Z.to_nat 8100)) = true.
Proof. by vm_compute. Qed.

Lemma decimal_length (y : nat) :
  (Z.of_nat y + 1900 < 10000)%Z → length (decimal (1900 + y)) = 4.
Proof.
  intros Hy. pose proof four_digit_years as H. rewrite forallb_forall in H.
  apply Nat.eqb_eq, H, in_seq. lia.
Qed.

(** [getTimestamp], lines 140-149, and the stamp of the constructor, lines
    37-44: at a calendar time with a year of four digits the timestamp has
    19 characters, with the separators of the format at the places 4, 7,
    10, 13 and 16. *)
Theorem timestamp_shape (t : tm) :
  calendar_time t →
  (length (getTimestamp t) = 19
   ∧ getTimestamp t !! 4 = Some "-"%char ∧ getTimestamp t !! 7 = Some "-"%char
   ∧ getTimestamp t !! 10 = Some " "%char
   ∧ getTimestamp t !! 13 = Some ":"%char
   ∧ getTimestamp t !! 16 = Some ":"%char)
  ∧ (length (startup_stamp t) = 19
     ∧ startup_stamp t !! 4 = Some "-"%char
     ∧ startup_stamp t !! 7 = Some "-"%char
     ∧ startup_stamp t !! 10 = Some "_"%char
     ∧ startup_stamp t !! 13 = Some "-"%char
     ∧ startup_stamp t !! 16 = Some "-"%char).
Proof.
  intros (Hy & _). apply decimal_length in Hy.
  unfold getTimestamp, startup_stamp, put_time.
  destruct (decimal (1900 + tm_year t)) as [|a [|b [|c [|d [|e year]]]]];
    try discriminate.
  by cbn.
Qed.

Lemma timestamp_shape_witness :
  length (getTimestamp noon) = 19 ∧ length (startup_stamp noon) = 19.
Proof.
  assert (Hnoon : calendar_time noon) by (unfold calendar_time, noon; cbn; lia).
  split.
  - exact (proj1 (proj1 (timestamp_shape noon Hnoon))).
  - exact (proj1 (proj2 (timestamp_shape noon Hnoon))).
Defined.

Lemma getTimestamp_unfold (y mo d h mi sec : nat) :
  getTimestamp (mkTm y mo d h mi sec)
  = decimal (1900 + y)
    ++ ["-"%char; digit ((mo + 1) / 10); digit (mo + 1); "-"%char;
        digit (d / 10); digit d; " "%char; digit (h / 10); digit h; ":"%char;
        digit (mi / 10); digit mi; ":"%char; digit (sec / 10); digit sec].
Proof. reflexivity. Qed.

(** [getTimestamp]: two calendar times with the same timestamp are the
    same time; the timestamp tells the second it was made in. *)
Theorem timestamp_injective (t1 t2 : tm) :
  calendar_time t1 → calendar_time t2 →
  getTimestamp t1 = getTimestamp t2 → t1 = t2.
Proof.
  destruct t1 as [y1 mo1 d1 h1 mi1 s1], t2 as [y2 mo2 d2 h2 mi2 s2].
  unfold calendar_time. cbn [tm_year tm_mon tm_mday tm_hour tm_min tm_sec].
  intros (Hy1 & Hm1 & Hd1 & Hh1 & Hmin1 & Hs1) (Hy2 & Hm2 & Hd2 & Hh2 & Hmin2 & Hs2).
  rewrite !getTimestamp_unfold. intros H.
  apply app_inj_1 in H as [Hyear Hrest];
    [|by rewrite !decimal_length].
  apply decimal_inj in Hyear.
  injection Hrest as Hmon1 Hmon0 Hday1 Hday0 Hhour1 Hhour0 Hminute1 Hminute0
    Hsec1 Hsec0.
  assert (mo1 + 1 = mo2 + 1) by (apply two_digits_eq; [lia..|done|done]).
  assert (d1 = d2) by (apply two_digits_eq; [lia..|done|done]).
  assert (h1 = h2) by (apply two_digits_eq; [lia..|done|done]).
  assert (mi1 = mi2) by (apply two_digits_eq; [lia..|done|done]).
  assert (s1 = s2) by (apply two_digits_eq; [lia..|done|done]).
  assert (y1 = y2) by lia. assert (mo1 = mo2) by lia.
  by subst.
Qed.

Lemma timestamp_injective_witness : noon = noon.
Proof.
  assert (Hnoon : calendar_time noon) by (unfold calendar_time, noon; cbn; lia).
  exact (timestamp_injective noon noon Hnoon Hnoon eq_refl).
Defined.

(** ** The suffix of the file name *)

Lemma rfind_absent (s : str) (c : ascii) : c ∉ s → rfind s c = None.
Proof.
  induction s as [|a s IH]; [done|].
  intros [Hne Hs]%not_elem_of_cons. cbn. rewrite IH by done.
  destruct (Ascii.eqb a c) eqn:E; [|done]. by apply Ascii.eqb_eq in E.
Qed.

Lemma rfind_extension (s : str) (c : ascii) (i : nat) :
  rfind s c = Some i → rfind (drop i s) c = Some 0.
Proof.
  intros Hi. pose proof (rfind_lt _ _ _ Hi) as Hlt.
  pose proof (rfind_app (take i s) (drop i s) c) as Happ.
  rewrite take_drop, Hi in Happ.
  assert (Hlen : length (take i s) = i) by (rewrite length_take; lia).
  destruct (rfind (drop i s) c) as [j|] eqn:Hj.
  - injection Happ as Happ. f_equal. lia.
  - symmetry in Happ. apply rfind_lt in Happ. lia.
Qed.

Lemma startup_stamp_no_dot (now : tm) : "."%char ∉ startup_stamp now.
Proof.
  apply numeric_not_in; [by vm_compute|].
  apply put_time_numeric; repeat constructor; by vm_compute.
Qed.

(** Where the last dot of the path that [init] opens lies, for a suffix
    without a dot. *)
Lemma effective_path_last_dot (ts fp : str) :
  "."%char ∉ ts →
  match rfind fp "." with
  | Some dot =>
      rfind (effective_path ts fp true) "." = Some (dot + 1 + length ts)
      ∧ take dot (effective_path ts fp true) = take dot fp
      ∧ drop (dot + 1 + length ts) (effective_path ts fp true) = drop dot fp
  | None =>
      rfind (effective_path ts fp true) "." = None
      ∧ effective_path ts fp true = fp ++ "_" ++ ts
  end.
Proof.
  intros Hts. unfold effective_path, substr_to, substr_from.
  destruct (rfind fp ".") as [dot|] eqn:Hdot.
  - pose proof (rfind_lt _ _ _ Hdot) as Hlt.
    pose proof (rfind_extension _ _ _ Hdot) as Hext.
    assert (Hlen : length (take dot fp) = dot) by (rewrite length_take; lia).
    split; [|split].
    + rewrite rfind_app, (rfind_app "_"), (rfind_app ts), Hext, Hlen.
      f_equal. cbn. lia.
    + by rewrite <- Hlen at 1; rewrite take_app_length.
    + rewrite (app_assoc _ "_"), (app_assoc _ ts).
      replace (dot + 1 + length ts)
        with (length ((take dot fp ++ "_") ++ ts))
        by (rewrite !length_app, Hlen; cbn; lia).
      by rewrite drop_app_length.
  - split; [|done].
    rewrite rfind_app, (rfind_app "_"), Hdot, (rfind_absent ts) by done.
    reflexivity.
Qed.

Lemma startupTime_step (l : Label) (s s' : System) :
  exec l s = Some s' → startupTime (logger s') = startupTime (logger s).
Proof.
  destruct l; cbn.
  - destruct (owner s); try done;
      (destruct c as [level fp append suffix|level|target|t|now level text f ln];
       cbn; unfold locked_call;
       [ destruct (holds_lock (worker s)); [done|];
         destruct (init_frame level fp append suffix (logger s) (world s))
           as (st & p & Hlg & _); intros [= <-]; cbn; by rewrite Hlg
       | destruct (holds_lock (worker s)); [done|]; by intros [= <-]
       | destruct (holds_lock (worker s)); [done|]; by intros [= <-]
       | destruct (holds_lock (worker s)); [done|]; by intros [= <-]
       | destruct (level_lt level (currentLevel (logger s)));
         [by intros [= <-]|];
         destruct (holds_lock (worker s)); [done|]; by intros [= <-] ]).
  - destruct (owner s), (notifying s); try done; by intros [= <-].
  - unfold worker_step.
    destruct (worker s) as [| | | | | | |msg| | | |]; try done;
      try (by intros [= <-]).
    + by destruct (_ || _); intros [= <-].
    + by destruct (messageQueue (logger s)); intros [= <-].
    + destruct (invariant_do_write msg s) as (st & w' & -> & _).
      by intros [= <-].
    + destruct (messageQueue (logger s)) as [|msg q]; [by intros [= <-]|].
      destruct (invariant_do_write msg s) as (st & w' & -> & _).
      by intros [= <-].
  - destruct (worker s); try done. by intros [= <-].
  - destruct (owner s); try done. by intros [= <-].
  - destruct (owner s); try done. by intros [= <-].
  - destruct (owner s); try done. destruct (worker s); try done.
    destruct (if is_open _ then _ else _) as [st w']. by intros [= <-].
Qed.

Lemma startupTime_constant (now : tm) (w : World) (s : System) :
  reachable now w s → startupTime (logger s) = startup_stamp now.
Proof.
  induction 1 as [|s l s' _ IH Hexec]; [done|].
  by rewrite (startupTime_step l s s' Hexec).
Qed.

(** [init], lines 84-93, and the constructor: in every state of a run,
    the path [init] would open for a request with the suffix keeps what
    the request has from its last dot on (its extension) as its own end,
    from its own last dot on, and keeps what the request has before that
    dot; the suffix, an underscore and the stamp of the start of the
    program, stands between the two.  A request without a dot gives a
    path without a dot. *)
Theorem suffix_keeps_extension (now : tm) (w : World) (s : System) (fp : str) :
  reachable now w s →
  startupTime (logger s) = startup_stamp now
  ∧ match rfind fp "." with
    | Some dot =>
        rfind (effective_path (startupTime (logger s)) fp true) "."
        = Some (dot + 1 + length (startup_stamp now))
        ∧ take dot (effective_path (startupTime (logger s)) fp true)
          = take dot fp
        ∧ drop (dot + 1 + length (startup_stamp now))
            (effective_path (startupTime (logger s)) fp true)
          = drop dot fp
    | None =>
        rfind (effective_path (startupTime (logger s)) fp true) "." = None
        ∧ effective_path (startupTime (logger s)) fp true
          = fp ++ "_" ++ startup_stamp now
    end.
Proof.
  intros Hreach. rewrite (startupTime_constant now w s Hreach).
  split; [done|]. apply effective_path_last_dot, startup_stamp_no_dot.
Qed.

Lemma suffix_keeps_extension_witness :
  drop (11 + 1 + length (startup_stamp noon))
    (effective_path (startupTime (logger reinit_final)) "logs/my.log.txt" true)
  = (".txt" : str).
Proof.
  exact (proj2 (proj2 (proj2 (suffix_keeps_extension noon empty_world
                                reinit_final "logs/my.log.txt"
                                reinit_final_reachable)))).
Defined.

(** [init], lines 84-97: two different requests never get the same path;
    the stamp cannot make two file names meet. *)
Theorem effective_path_injective (now : tm) (fp1 fp2 : str) (suffix : bool) :
  effective_path (startup_stamp now) fp1 suffix
  = effective_path (startup_stamp now) fp2 suffix →
  fp1 = fp2.
Proof.
  destruct suffix; [|done]. intros Heq.
  pose proof (effective_path_last_dot (startup_stamp now) fp1
                (startup_stamp_no_dot now)) as H1.
  pose proof (effective_path_last_dot (startup_stamp now) fp2
                (startup_stamp_no_dot now)) as H2.
  rewrite Heq in H1.
  destruct (rfind fp1 ".") as [d1|], (rfind fp2 ".") as [d2|].
  - destruct H1 as (Hr1 & Ht1 & Hd1), H2 as (Hr2 & Ht2 & Hd2).
    rewrite Hr2 in Hr1. injection Hr1 as Hr1.
    assert (d1 = d2) as -> by lia.
    rewrite <- (take_drop d2 fp1), <- (take_drop d2 fp2).
    by rewrite <- Ht1, <- Hd1, Ht2, Hd2.
  - destruct H1 as (Hr1 & _), H2 as (Hr2 & _). by rewrite Hr2 in Hr1.
  - destruct H1 as (Hr1 & _), H2 as (Hr2 & _). by rewrite Hr2 in Hr1.
  - destruct H1 as (_ & Hp1), H2 as (_ & Hp2). rewrite Hp2 in Hp1.
    by apply app_inv_tail in Hp1.
Qed.

Lemma effective_path_injective_witness : ("a.log" : str) = ("a.log" : str).
Proof.
  exact (effective_path_injective noon "a.log" "a.log" true eq_refl).
Defined.

(** ** Opening the file *)

(** [init], lines 73-107, on a logger whose stream is not open, for a
    path that cannot be opened, the directory step of lines 77-82 having
    passed: [init] returns, nothing is reported and nothing is printed,
    the files stay as they are, the level and the path are set, the stream
    stays closed, in an error state.  A message written afterwards with
    the File bit set reaches no file, and the last line on the console
    says that the file is not open. *)
Theorem init_unwritable (level : LogLevel) (filePath : str)
  (append suffix : bool) (lg : Logger) (w w0 : World) (msg : LogMessage) :
  ensure_directory filePath w = Some w0 →
  is_open (logFileStream lg) = false →
  can_open w0 (effective_path (startupTime lg) filePath suffix) = false →
  init level filePath append suffix lg w
  = Returns
      (set_logFileStream (setstate_fail (logFileStream lg))
         (set_logFilePath (effective_path (startupTime lg) filePath suffix)
            (set_currentLevel level lg))) w0
  ∧ disk w0 = disk w ∧ console w0 = console w
  ∧ (has_bit (outputTarget lg) File = true →
     disk (writeLog msg (logger_of (init level filePath append suffix lg w))
             (world_of (init level filePath append suffix lg w))).2 = disk w
     ∧ last (console
               (writeLog msg (logger_of (init level filePath append suffix lg w))
                  (world_of (init level filePath append suffix lg w))).2)
       = Some FileNotOpen).
Proof.
  intros Hd Ho Hw.
  assert (Hinit : init level filePath append suffix lg w
                  = Returns
                      (set_logFileStream (setstate_fail (logFileStream lg))
                         (set_logFilePath
                            (effective_path (startupTime lg) filePath suffix)
                            (set_currentLevel level lg))) w0).
  { unfold init, ofstream_open. rewrite Hd.
    cbn [logFileStream set_logFilePath set_currentLevel startupTime logFilePath].
    rewrite Ho, Hw.
    assert (Hc : is_open (setstate_fail (logFileStream lg)) = false)
      by (unfold is_open in *; by destruct (logFileStream lg)).
    by rewrite Hc. }
  destruct (ensure_directory_frame _ _ _ Hd) as (Hdisk & Hcons & _).
  split; [done|]. do 2 (split; [done|]).
  intros Hf. rewrite Hinit. cbn [logger_of world_of].
  rewrite writeLog_closed;
    [|done|unfold is_open in *; by destruct (logFileStream lg)].
  cbn [snd]. split.
  - by destruct (has_bit _ Console).
  - unfold print at 1. cbn [console]. apply last_snoc.
Qed.

Lemma init_unwritable_witness :
  disk (writeLog sample_message
          (logger_of
             (init TRACE "a.log" true false
                (set_outputTarget File (Logger_new noon)) read_only_world))
          (world_of
             (init TRACE "a.log" true false
                (set_outputTarget File (Logger_new noon)) read_only_world))).2
  = ∅.
Proof.
  refine (proj1 (proj2 (proj2 (proj2
            (init_unwritable TRACE "a.log" true false
               (set_outputTarget File (Logger_new noon))
               read_only_world read_only_world sample_message _ _ _))) _));
    reflexivity.
Defined.

(** [init] on a logger whose stream is not open, whatever its error
    state, for a path that can be opened, the directory step having
    passed: the stream is open on that path afterwards and its error state
    is cleared, so that a failed [init] can be made up for by a later
    one. *)
Theorem init_clears_error_state (level : LogLevel) (filePath : str)
  (append suffix : bool) (lg : Logger) (w w0 : World) :
  ensure_directory filePath w = Some w0 →
  is_open (logFileStream lg) = false →
  can_open w0 (effective_path (startupTime lg) filePath suffix) = true →
  throws (init level filePath append suffix lg w) = false
  ∧ fs_file (logFileStream (logger_of (init level filePath append suffix lg w)))
    = Some (effective_path (startupTime lg) filePath suffix)
  ∧ fs_fail (logFileStream (logger_of (init level filePath append suffix lg w)))
    = false.
Proof.
  intros Hd Ho Hw. rewrite (init_opens level filePath append suffix lg w w0 Hd Ho Hw).
  cbn [throws logger_of logFileStream set_logFileStream].
  split; [done|]. by destruct (tellp _ _ =? 0)%Z.
Qed.

Lemma init_clears_error_state_witness :
  fs_fail (logFileStream
             (logger_of
                (init TRACE "b.log" true false
                   (logger_of
                      (init TRACE "a.log" true false (Logger_new noon)
                         read_only_world)) empty_world))) = false.
Proof.
  refine (proj2 (proj2 (init_clears_error_state TRACE "b.log" true false
                          (logger_of
                             (init TRACE "a.log" true false (Logger_new noon)
                                read_only_world)) empty_world empty_world
                          _ _ _))); reflexivity.
Defined.

(** [init] keeps what it has no business with: the queue, the exit flag,
    the output target, the template and the startup time are as before,
    and nothing is printed, whether the file could be opened or not and
    whether [init] returns or throws. *)
Theorem init_keeps_queue_and_settings (level : LogLevel) (filePath : str)
  (append suffix : bool) (lg : Logger) (w : World) :
  messageQueue (logger_of (init level filePath append suffix lg w))
  = messageQueue lg
  ∧ exitFlag (logger_of (init level filePath append suffix lg w)) = exitFlag lg
  ∧ outputTarget (logger_of (init level filePath append suffix lg w))
    = outputTarget lg
  ∧ formatTemplate (logger_of (init level filePath append suffix lg w))
    = formatTemplate lg
  ∧ startupTime (logger_of (init level filePath append suffix lg w))
    = startupTime lg
  ∧ currentLevel (logger_of (init level filePath append suffix lg w)) = level
  ∧ console (world_of (init level filePath append suffix lg w)) = console w.
Proof.
  destruct (init_frame level filePath append suffix lg w)
    as (st & p & -> & Hcons & _).
  by cbn.
Qed.

(** ** The directory of the log file *)






(** ** Before [init] *)

(** The default member initialisers, [Logger.h] lines 131-145: on a
    logger on which [init] was never called, [log] pushes the message
    whatever its level, and [writeLog] prints it in the default template
    on the console and touches neither a file nor the logger. *)
Theorem logging_before_init (start now : tm) (L : LogLevel) (text f : str)
  (ln : Z) (w : World) :
  log now L text f ln (Logger_new start)
  = enqueueLog (mkLogMessage L text f ln (getTimestamp now)) (Logger_new start)
  ∧ writeLog (mkLogMessage L text f ln (getTimestamp now)) (Logger_new start) w
    = (Logger_new start,
       print (ConsoleOutput
                (formatLogMessage "{t} | {L} | {f}:{l} -> {m}"
                   (mkLogMessage L text f ln (getTimestamp now)))) w).
Proof. split; [by destruct L|done]. Qed.

(** ** Writing a queue of messages *)

Lemma drain_queue_lines (q : list LogMessage) (lg : Logger) (w : World)
  (path : str) :
  has_bit (outputTarget lg) File = true →
  fs_file (logFileStream lg) = Some path → fs_fail (logFileStream lg) = false →
  pending_content (drain_queue q lg w).1 (drain_queue q lg w).2 path
  = pending_content lg w path ++ concat (map (log_line (formatTemplate lg)) q)
  ∧ (q ≠ [] →
     disk (drain_queue q lg w).2 !! path
     = Some (pending_content lg w path
             ++ concat (map (log_line (formatTemplate lg)) q))
     ∧ messageQueue (drain_queue q lg w).1 = [])
  ∧ fs_file (logFileStream (drain_queue q lg w).1) = Some path
  ∧ fs_fail (logFileStream (drain_queue q lg w).1) = false.
Proof.
  revert lg w. induction q as [|msg q IH]; intros lg w Hf Hp Hg.
  - cbn. by rewrite app_nil_r.
  - cbn [drain_queue map concat].
    pose proof (writeLog_pending msg lg w path Hf Hp Hg) as [Hpend Hdisk].
    pose proof (writeLog_open msg lg w path Hf Hp Hg) as [_ Hstream].
    destruct (writeLog_frame msg lg w) as (st & w1 & Hw & _).
    rewrite Hw in Hpend, Hdisk, Hstream |- *. cbn [fst snd] in *.
    cbn [logFileStream] in Hstream. subst st.
    set (lg2 := set_messageQueue q _).
    assert (Hpend2 : pending_content lg2 w1 path
                     = pending_content lg w path
                       ++ log_line (formatTemplate lg) msg) by exact Hpend.
    destruct (IH lg2 w1 Hf eq_refl eq_refl) as (IHpend & IHdisk & IHfile & IHfail).
    change (formatTemplate lg2) with (formatTemplate lg) in IHpend, IHdisk.
    rewrite Hpend2, <- app_assoc in IHpend, IHdisk.
    split; [done|]. split; [|done]. intros _.
    destruct q as [|msg' q']; [|by apply IHdisk].
    cbn. by rewrite app_nil_r.
Qed.

(** The loop of lines 275-278 with the File bit set, the stream open and
    in no error state: the file ends up with what it held, what the stream
    had buffered, and the lines of the queued messages, one after the
    other in the order of the queue; the stream stays open without error
    state and the queue is empty. *)
Theorem drain_appends_lines (lg : Logger) (w : World) (path : str) :
  has_bit (outputTarget lg) File = true →
  fs_file (logFileStream lg) = Some path → fs_fail (logFileStream lg) = false →
  messageQueue lg ≠ [] →
  disk (final_drain lg w).2 !! path
  = Some (content w path ++ fs_buffer (logFileStream lg)
          ++ concat (map (λ msg, formatLogMessage (formatTemplate lg) msg
                                 ++ newline) (messageQueue lg)))
  ∧ fs_file (logFileStream (final_drain lg w).1) = Some path
  ∧ fs_fail (logFileStream (final_drain lg w).1) = false
  ∧ fs_buffer (logFileStream (final_drain lg w).1) = []
  ∧ messageQueue (final_drain lg w).1 = [].
Proof.
  intros Hf Hp Hg Hq. unfold final_drain.
  destruct (drain_queue_lines (messageQueue lg) lg w path Hf Hp Hg)
    as (Hpend & Hdisk & Hfile & Hfail).
  destruct (Hdisk Hq) as [Hd Hempty].
  unfold pending_content in Hd at 1. rewrite <- app_assoc in Hd.
  split; [exact Hd|]. do 2 (split; [done|]). split; [|done].
  unfold pending_content in Hpend. unfold content in Hpend at 1.
  rewrite Hd in Hpend. cbn [default] in Hpend. unfold id in Hpend.
  unfold log_line in Hpend. rewrite <- !app_assoc in Hpend.
  apply (f_equal length) in Hpend. rewrite !length_app in Hpend.
  apply nil_length_inv. lia.
Qed.

Lemma drain_appends_lines_witness :
  disk (final_drain queued_logger queued_world).2 !! ("a.log" : str)
  = Some (bom
          ++ ("2024-01-01 12:00:00 | INFO | f.cpp:1 -> one" : str) ++ newline
          ++ ("2024-01-01 12:00:00 | ERROR | f.cpp:2 -> two" : str) ++ newline).
Proof.
  refine (eq_trans (proj1 (drain_appends_lines queued_logger queued_world
                             "a.log" _ _ _ _)) _);
    try reflexivity.
  vm_compute. discriminate.
Defined.

(** ** The end of the logger *)

(** The destructor, lines 57-63, once the worker has returned: the
    stream is closed; if it was open, its file holds afterwards what it
    held and what the stream had buffered, and no other file is touched;
    and nothing can happen to the destroyed logger any more. *)
Theorem destructor_closes (s s' : System) :
  exec DtorJoinClose s = Some s' →
  fs_file (logFileStream (logger s')) = None
  ∧ owner s' = Destroyed
  ∧ (∀ path, fs_file (logFileStream (logger s)) = Some path →
       disk (world s')
       = <[path := content (world s) path
                   ++ fs_buffer (logFileStream (logger s))]> (disk (world s)))
  ∧ (fs_file (logFileStream (logger s)) = None → world s' = world s)
  ∧ ∀ l, exec l s' = None.
Proof.
  cbn. destruct (owner s); try done. destruct (worker s); try done.
  unfold is_open, ofstream_close.
  destruct (fs_file (logFileStream (logger s))) as [path|] eqn:Hfile.
  - rewrite bool_decide_eq_true_2 by eauto.
    intros [= <-]. cbn. split; [done|]. split; [done|].
    split; [by intros ? [= <-]|]. split; [done|]. by intros [].
  - rewrite bool_decide_eq_false_2 by (intros [? ?]; done).
    intros [= <-]. cbn. split; [done|]. split; [done|].
    split; [done|]. split; [done|]. by intros [].
Qed.

Lemma destructor_closes_witness :
  fs_file (logFileStream (logger reinit_final)) = None
  ∧ owner reinit_final = Destroyed.
Proof.
  destruct (destructor_closes before_close reinit_final) as (Hfile & Howner & _).
  - vm_compute. reflexivity.
  - split; [exact Hfile|exact Howner].
Defined.

(** ** A stream in an error state *)

Lemma setstate_fail_failed (st : ofstream) :
  fs_fail st = true → setstate_fail st = st.
Proof. destruct st. cbn. by intros ->. Qed.

(** [init] leaves a stream alone that is open and in an error state,
    and changes no file, whether it returns or throws. *)
Lemma init_keeps_failed_stream (level : LogLevel) (filePath : str)
  (append suffix : bool) (lg : Logger) (w : World) (path : str) :
  fs_file (logFileStream lg) = Some path → fs_fail (logFileStream lg) = true →
  logFileStream (logger_of (init level filePath append suffix lg w))
  = logFileStream lg
  ∧ disk (world_of (init level filePath append suffix lg w)) = disk w.
Proof.
  intros Hfile Hfail.
  destruct (ensure_directory filePath w) as [w0|] eqn:Hd.
  - rewrite (init_on_open_stream _ _ _ _ _ _ _ _ Hd Hfile). cbn.
    rewrite setstate_fail_failed by done.
    by destruct (ensure_directory_frame _ _ _ Hd) as (-> & _).
  - by rewrite (init_throws _ _ _ _ _ _ Hd).
Qed.

Lemma do_write_failed (msg : LogMessage) (s : System) :
  fs_fail (logFileStream (logger s)) = true →
  logFileStream (logger (do_write msg s)) = logFileStream (logger s)
  ∧ disk (world (do_write msg s)) = disk (world s).
Proof.
  intros Hfail. unfold do_write.
  pose proof (writeLog_failed msg (logger s) (world s) Hfail) as H.
  by destruct (writeLog msg (logger s) (world s)).
Qed.

Lemma failed_stream_step (l : Label) (s s' : System) (path : str) :
  exec l s = Some s' → l ≠ DtorJoinClose →
  fs_file (logFileStream (logger s)) = Some path →
  fs_fail (logFileStream (logger s)) = true →
  logFileStream (logger s') = logFileStream (logger s)
  ∧ disk (world s') = disk (world s).
Proof.
  intros Hexec Hl Hfile Hfail. destruct l; cbn in Hexec; try done.
  - destruct (owner s); try done;
      (destruct c as [level fp append suffix|level|target|t|now level text f ln];
       cbn in Hexec; unfold locked_call in Hexec;
       [ destruct (holds_lock (worker s)); [done|];
         injection Hexec as <-; cbn;
         by apply (init_keeps_failed_stream _ _ _ _ _ _ path)
       | destruct (holds_lock (worker s)); [done|]; by injection Hexec as <-
       | destruct (holds_lock (worker s)); [done|]; by injection Hexec as <-
       | destruct (holds_lock (worker s)); [done|]; by injection Hexec as <-
       | destruct (level_lt level (currentLevel (logger s)));
         [by injection Hexec as <-|];
         destruct (holds_lock (worker s)); [done|]; by injection Hexec as <- ]).
  - destruct (owner s), (notifying s); try done; by injection Hexec as <-.
  - unfold worker_step in Hexec.
    destruct (worker s) as [| | | | | | |msg| | | |]; try done;
      try (by injection Hexec as <-).
    + by destruct (_ || _); injection Hexec as <-.
    + by destruct (messageQueue (logger s)); injection Hexec as <-.
    + injection Hexec as <-. by apply do_write_failed.
    + destruct (messageQueue (logger s)) as [|msg q];
        injection Hexec as <-; [done|]. by apply do_write_failed.
  - destruct (worker s); try done. by injection Hexec as <-.
  - destruct (owner s); try done. by injection Hexec as <-.
  - destruct (owner s); try done. by injection Hexec as <-.
Qed.

(** [init] while the file is open puts the stream in an error state, and
    no member function takes it out of that state: in every run from a
    state in which the stream is open and in an error state, up to the
    closing of the file by the destructor, the stream stays as it is and
    every file keeps its content, whatever is logged and whatever [init]
    is called with. *)
Theorem failed_stream_is_final (ls : list Label) (s s' : System) (path : str) :
  run ls s = Some s' → DtorJoinClose ∉ ls →
  fs_file (logFileStream (logger s)) = Some path →
  fs_fail (logFileStream (logger s)) = true →
  logFileStream (logger s') = logFileStream (logger s)
  ∧ disk (world s') = disk (world s).
Proof.
  revert s. induction ls as [|l ls IH]; intros s; cbn.
  - by intros [= <-].
  - destruct (exec l s) as [s1|] eqn:Hexec; [|done]. cbn.
    intros Hrun [Hl Hls]%not_elem_of_cons Hfile Hfail.
    destruct (failed_stream_step l s s1 path Hexec) as [Hst Hdisk];
      [done..|].
    destruct (IH s1 Hrun Hls) as [Hst' Hdisk']; [by rewrite Hst..|].
    by rewrite Hst', Hdisk', Hst, Hdisk.
Qed.

Lemma failed_stream_is_final_witness :
  handled after_lost_message = [sample_message]
  ∧ disk (world after_lost_message) = disk (world after_second_init).
Proof.
  split; [by vm_compute|].
  refine (proj2 (failed_stream_is_final lost_message_run after_second_init
                   after_lost_message "a.log" _ _ _ _)).
  - vm_compute. reflexivity.
  - unfold lost_message_run. rewrite !not_elem_of_cons. repeat split; try done.
    apply not_elem_of_nil.
  - reflexivity.
  - reflexivity.
Defined.

(** ** The worker and the wait *)

(** The wait of line 260 and [enqueueLog], lines 219-223.  In every state
    of every run in which the worker has found the predicate false and is
    about to wait, the queue is empty and every message pushed so far has
    been passed to [writeLog].  While the worker waits the queue need not
    be empty, for a producer pushes under the mutex and notifies after it
    has released it; but every message then in the queue was pushed by a
    producer that has its notification still to give, so that, if the
    queue is not empty, a producer is there to wake the worker. *)
Theorem no_message_stranded (now : tm) (w : World) (s : System) :
  reachable now w s →
  (worker s = AboutToBlock →
   messageQueue (logger s) = [] ∧ handled s = pushed s)
  ∧ (worker s = Blocked →
     pushed s = handled s ++ messageQueue (logger s)
     ∧ length (messageQueue (logger s)) ≤ notifying s
     ∧ (messageQueue (logger s) ≠ [] →
        ∃ s', exec ProducerNotify s = Some s' ∧ worker s' = Woken
              ∧ messageQueue (logger s') = messageQueue (logger s)
              ∧ notifying s' = pred (notifying s))).
Proof.
  intros Hreach.
  destruct (reachable_invariant now w s Hreach)
    as [Hq _ _ _ _ Hpred Hwait Hdes _].
  split.
  - intros Hpc. specialize (Hpred Hpc). split; [done|].
    rewrite Hq, Hpred, Hpc. cbn. by rewrite app_nil_r.
  - intros Hpc. specialize (Hwait Hpc). split; [by rewrite Hq, Hpc|].
    split; [done|]. intros Hne.
    destruct (notifying s) as [|k] eqn:Hk.
    { destruct (messageQueue (logger s)); [done|]. cbn in Hwait. lia. }
    cbn. rewrite Hk, Hpc.
    destruct (owner s) eqn:Ho; try (by eexists).
    specialize (Hdes eq_refl). by rewrite Hpc in Hdes.
Qed.

Lemma no_message_stranded_witness :
  length (messageQueue (logger three_queued)) ≤ notifying three_queued
  ∧ ∃ s', exec ProducerNotify three_queued = Some s' ∧ worker s' = Woken
          ∧ messageQueue (logger s') = messageQueue (logger three_queued)
          ∧ notifying s' = pred (notifying three_queued).
Proof.
  destruct (proj2 (no_message_stranded noon empty_world three_queued
                     three_queued_reachable) eq_refl)
    as (_ & Hle & Hwake).
  split; [exact Hle|]. apply Hwake. vm_compute. discriminate.
Defined.

(** The destructor, lines 55-56, sets the flag and notifies without the
    mutex.  From every state in which the worker has found the predicate
    of line 260 false and has not yet begun to wait, the destructor can
    run both lines; the worker then goes to wait with the flag set, and
    neither the worker nor the destructor can take a step: the worker
    waits for a notification and [join] for the worker. *)
Theorem wakeup_can_be_missed (s : System) :
  worker s = AboutToBlock → owner s = Live →
  ∃ s', run [DtorSignal; DtorNotify; WorkerStep] s = Some s'
        ∧ worker s' = Blocked ∧ owner s' = Joining
        ∧ exitFlag (logger s') = true
        ∧ exec WorkerStep s' = None ∧ exec DtorSignal s' = None
        ∧ exec DtorNotify s' = None ∧ exec DtorJoinClose s' = None.
Proof.
  intros Hpc Ho. destruct s as [lg wd pc ow nt pu ha ps]. cbn in Hpc, Ho. subst.
  eexists. split; [reflexivity|]. by cbn.
Qed.

Lemma wakeup_can_be_missed_witness :
  ∃ s', run [DtorSignal; DtorNotify; WorkerStep] about_to_block = Some s'
        ∧ worker s' = Blocked ∧ owner s' = Joining
        ∧ exitFlag (logger s') = true
        ∧ exec WorkerStep s' = None ∧ exec DtorSignal s' = None
        ∧ exec DtorNotify s' = None ∧ exec DtorJoinClose s' = None.
Proof.
  apply (wakeup_can_be_missed about_to_block); reflexivity.
Defined.

(** ** The worker after the signal *)

Lemma exit_from_inner (s : System) :
  worker s = AtInnerTest → exitFlag (logger s) = true →
  ∃ s', run (replicate (3 * length (messageQueue (logger s)) + 4) WorkerStep) s
        = Some s'
        ∧ worker s' = Exited ∧ messageQueue (logger s') = []
        ∧ handled s' = handled s ++ messageQueue (logger s)
        ∧ pushed s' = pushed s ∧ owner s' = owner s.
Proof.
  intros Hpc Hflag.
  destruct (inner_loop_run (messageQueue (logger s)) s Hpc eq_refl)
    as (s1 & Hrun & Hw & Hqueue & Hflag1 & Hh & Hp & Ho).
  destruct s1 as [[lv tg st su pa qu ef ft] wd pc ow nt pu ha ps].
  cbn in Hw, Hqueue, Hflag1, Hh, Hp, Ho. subst pc qu.
  rewrite Hflag in Hflag1. subst ef.
  eexists. split.
  - apply (worker_steps_trans _ 4 _ _ _ Hrun). reflexivity.
  - by cbn.
Qed.

(** [workerFunc] after the signal, when the worker runs and nobody else
    does: from every state in which the exit flag is set and the worker
    neither waits nor is about to, the worker returns after at most three
    steps for each queued message and six more, and every message that
    was popped or queued has then been passed to [writeLog], in order;
    the queue is empty. *)
Theorem worker_exits_when_scheduled (s : System) :
  exitFlag (logger s) = true →
  worker s ≠ AboutToBlock → worker s ≠ Blocked → worker s ≠ Exited →
  ∃ n s', n ≤ 3 * length (messageQueue (logger s)) + 6
          ∧ run (replicate n WorkerStep) s = Some s'
          ∧ worker s' = Exited ∧ messageQueue (logger s') = []
          ∧ handled s'
            = handled s ++ in_flight (worker s) ++ messageQueue (logger s)
          ∧ pushed s' = pushed s ∧ owner s' = owner s.
Proof.
  intros Hflag Hab Hbl Hex.
  destruct s as [[lv tg st su pa qu ef ft] wd pc ow nt pu ha ps].
  cbn in Hflag, Hab, Hbl, Hex. subst ef.
  set (inner := mkSystem (mkLogger lv tg st su pa qu true ft) wd AtInnerTest
                  ow nt pu ha ps).
  set (final := mkSystem (mkLogger lv tg st su pa qu true ft) wd FinalDrain
                  ow nt pu ha ps).
  destruct (exit_from_inner inner eq_refl eq_refl)
    as (si & Hruni & Hwi & Hqi & Hhi & Hpi & Hoi).
  destruct (final_loop_run qu final eq_refl eq_refl)
    as (sf & Hrunf & Hwf & Hqf & Hhf & Hpf & Hof).
  cbn in Hruni, Hhi, Hpi, Hoi, Hrunf, Hhf, Hpf, Hof.
  destruct pc as [| | | | | | |msg| | | |]; try done; cbn.
  - (* line 258 *)
    exists (2 + S (length qu)), sf. split; [lia|]. split; [|done].
    by apply (worker_steps_trans 2 _ _ final).
  - (* line 259 *)
    exists (2 + (3 * length qu + 4)), si. split; [lia|]. split; [|done].
    apply (worker_steps_trans 2 _ _ inner); [|done].
    cbn. by rewrite orb_true_r.
  - (* line 260, the predicate *)
    exists (1 + (3 * length qu + 4)), si. split; [lia|]. split; [|done].
    apply (worker_steps_trans 1 _ _ inner); [|done].
    cbn. by rewrite orb_true_r.
  - (* line 260, after the wait *)
    exists (2 + (3 * length qu + 4)), si. split; [lia|]. split; [|done].
    apply (worker_steps_trans 2 _ _ inner); [|done].
    cbn. by rewrite orb_true_r.
  - (* line 262 *)
    exists (3 * length qu + 4), si. split; [lia|]. by split.
  - (* line 267 *)
    set (s0 := mkSystem (mkLogger lv tg st su pa qu true ft) wd (Writing msg)
                 ow nt pu ha ps).
    destruct (invariant_do_write msg s0) as (st' & w' & Hwrite & _).
    cbn in Hwrite.
    set (inner' := mkSystem (mkLogger lv tg st' su pa qu true ft) w'
                     AtInnerTest ow nt pu (ha ++ [msg]) ps).
    destruct (exit_from_inner inner' eq_refl eq_refl)
      as (si' & Hruni' & Hwi' & Hqi' & Hhi' & Hpi' & Hoi').
    cbn in Hruni', Hhi', Hpi', Hoi'.
    exists (2 + (3 * length qu + 4)), si'. split; [lia|]. split.
    + apply (worker_steps_trans 2 _ _ inner'); [|done].
      cbn. change (do_write msg _) with (do_write msg s0).
      by rewrite Hwrite.
    + by rewrite Hhi', <- app_assoc.
  - (* line 269 *)
    exists (1 + (3 * length qu + 4)), si. split; [lia|]. split; [|done].
    by apply (worker_steps_trans 1 _ _ inner).
  - (* line 274 *)
    exists (1 + S (length qu)), sf. split; [lia|]. split; [|done].
    by apply (worker_steps_trans 1 _ _ final).
  - (* line 275 *)
    exists (S (length qu)), sf. split; [lia|]. by split.
Qed.

Lemma worker_exits_when_scheduled_witness :
  ∃ n s', n ≤ 3 * 2 + 6
          ∧ run (replicate n WorkerStep) signalled_with_queue = Some s'
          ∧ worker s' = Exited ∧ messageQueue (logger s') = []
          ∧ handled s'
            = handled signalled_with_queue ++ []
              ++ messageQueue (logger signalled_with_queue)
          ∧ pushed s' = pushed signalled_with_queue
          ∧ owner s' = owner signalled_with_queue.
Proof.
  apply (worker_exits_when_scheduled signalled_with_queue);
    [reflexivity|discriminate..].
Defined.

(** ** The rendered line *)

Section Rendered.

Variable σ : ascii → option str.
Variable k : ascii.
Hypothesis k_letter : k ≠ "{"%char.
Hypothesis k_bound : is_Some (σ k).
Hypothesis values_inert : ∀ x u, σ x = Some u → inert [k] u = true.

(** A scan that replaces the letter [k] leaves no placeholder of [k]. *)
Lemma rendered_without_key (tmpl : str) :
  find0 (render σ tmpl) (placeholder k) = None.
Proof.
  remember (length tmpl) as n eqn:Hn.
  revert tmpl Hn. induction n as [n IH] using lt_wf_ind. intros tmpl ->.
  destruct tmpl as [|c rest]; [done|].
  assert (IHrest : find0 (render σ rest) (placeholder k) = None)
    by (apply (IH (length rest)); [cbn; lia|done]).
  destruct (decide (c = "{"%char)) as [->|Hc].
  2: { rewrite render_cons_other by done. cbn [find0].
       unfold placeholder at 1. rewrite starts_with_cons.
       apply Ascii.eqb_neq in Hc. rewrite Ascii.eqb_sym in Hc.
       by rewrite Hc, IHrest. }
  assert (Hcopy : (∀ rest', rest ≠ k :: "}"%char :: rest') →
                  find0 ("{"%char :: render σ rest) (placeholder k) = None).
  { intros Hrest. cbn [find0]. unfold placeholder at 1.
    rewrite starts_with_cons, Ascii.eqb_refl, IHrest.
    destruct (starts_with [k; "}"%char] (render σ rest)) eqn:Hs; [|done].
    apply (key_after_brace σ k k_letter values_inert) in Hs as [rest' ->].
    by destruct (Hrest rest'). }
  destruct rest as [|x [|y rest']].
  - apply (find0_short ["{"%char]). cbn. lia.
  - apply (find0_short ["{"%char; x]). cbn. lia.
  - rewrite render_three, Ascii.eqb_refl.
    destruct (Ascii.eqb y "}") eqn:Hy; cbv beta iota delta [andb].
    2: { apply Hcopy. intros r [= -> ->]. by rewrite Ascii.eqb_refl in Hy. }
    destruct (σ x) as [u|] eqn:Hu.
    + apply values_inert, inert_spec in Hu as (_ & Hopen & _ & _).
      unfold placeholder. rewrite find0_skip by done.
      fold (placeholder k).
      by rewrite (IH (length rest')); [|cbn; lia|].
    + apply Hcopy. intros r [= -> _]. rewrite Hu in k_bound.
      by destruct k_bound.
Qed.

End Rendered.

Lemma inert_mono (later later' v : str) :
  (∀ x, x ∈ later' → x ∈ later) → inert later v = true →
  inert later' v = true.
Proof.
  unfold inert. rewrite !andb_true_iff, !forallb_forall.
  intros Hsub [[Hb Hn] Hl]. split; [done|].
  intros x Hx%list_elem_of_In. by apply Hl, list_elem_of_In, Hsub.
Qed.

Lemma levelToString_inert_all (l : LogLevel) :
  inert "tLflm" (levelToString l) = true.
Proof. by destruct l. Qed.

Lemma to_string_inert_all (n : Z) : inert "tLflm" (to_string n) = true.
Proof.
  pose proof (to_string_numeric n) as Hnum.
  pose proof (to_string_nonempty n) as Hne.
  rewrite Forall_forall in Hnum.
  unfold inert. rewrite !andb_true_iff, !forallb_forall. split; [split|].
  - intros c Hc%list_elem_of_In. specialize (Hnum c Hc).
    destruct (Ascii.eqb c "{") eqn:Ho;
      [apply Ascii.eqb_eq in Ho as ->; by vm_compute in Hnum|].
    destruct (Ascii.eqb c "}") eqn:Hcl;
      [apply Ascii.eqb_eq in Hcl as ->; by vm_compute in Hnum|].
    done.
  - by apply negb_true_iff, bool_decide_eq_false.
  - intros x Hx. apply negb_true_iff, bool_decide_eq_false. intros Heq.
    specialize (Hnum x). rewrite Heq in Hnum.
    specialize (Hnum ltac:(by left)).
    destruct Hx as [<-|[<-|[<-|[<-|[<-|[]]]]]]; by vm_compute in Hnum.
Qed.

(** [formatLogMessage], lines 173-191: when the timestamp, the file name
    and the text of the message hold no brace, are not empty and are not
    a single placeholder letter, the rendered line holds none of the five
    placeholders, for every template; rendered again as a template, for
    any message, it stays as it is. *)
Theorem rendered_line_has_no_placeholder (tmpl : str) (msg msg' : LogMessage) :
  inert "tLflm" (timestamp msg) = true → inert "tLflm" (file msg) = true →
  inert "tLflm" (message msg) = true →
  (∀ ph, ph ∈ placeholders → find (formatLogMessage tmpl msg) ph 0 = None)
  ∧ formatLogMessage (formatLogMessage tmpl msg) msg'
    = formatLogMessage tmpl msg.
Proof.
  intros HT HF HM.
  assert (Hnone : ∀ ph, ph ∈ placeholders →
                        find (formatLogMessage tmpl msg) ph 0 = None).
  { intros ph Hph.
    rewrite passes_are_scan;
      [|apply (inert_mono "tLflm"); [|done];
        intros x; cbn; rewrite !elem_of_cons; tauto..].
    unfold render_spec, find. cbn [Nat.leb]. change (drop 0 ?l) with l.
    assert (Hv : ∀ k, k ∈ ("tLflm" : str) →
                 ∀ x u, placeholder_value msg x = Some u → inert [k] u = true).
    { intros k Hk x u. unfold placeholder_value.
      repeat (destruct (Ascii.eqb x _); [intros [= <-];
                by apply (inert_weaken "tLflm");
                  rewrite ?levelToString_inert_all, ?to_string_inert_all|]).
      done. }
    unfold placeholders in Hph. rewrite !elem_of_cons, elem_of_nil in Hph.
    destruct Hph as [->|[->|[->|[->|[->|[]]]]]].
    - change ("{t}" : str) with (placeholder "t").
      rewrite rendered_without_key; [done|done|by eexists|].
      apply Hv. cbn. rewrite !elem_of_cons. tauto.
    - change ("{L}" : str) with (placeholder "L").
      rewrite rendered_without_key; [done|done|by eexists|].
      apply Hv. cbn. rewrite !elem_of_cons. tauto.
    - change ("{f}" : str) with (placeholder "f").
      rewrite rendered_without_key; [done|done|by eexists|].
      apply Hv. cbn. rewrite !elem_of_cons. tauto.
    - change ("{l}" : str) with (placeholder "l").
      rewrite rendered_without_key; [done|done|by eexists|].
      apply Hv. cbn. rewrite !elem_of_cons. tauto.
    - change ("{m}" : str) with (placeholder "m").
      rewrite rendered_without_key; [done|done|by eexists|].
      apply Hv. cbn. rewrite !elem_of_cons. tauto. }
  split; [done|]. by apply no_placeholder_unchanged.
Qed.

Lemma rendered_line_has_no_placeholder_witness :
  formatLogMessage
    (formatLogMessage "{t} {m} {x}"
       (mkLogMessage INFO "hello" "a.cpp" 10 "2024-01-01 12:00:00"))
    (mkLogMessage ERROR_ "other" "b.cpp" 20 "2024-01-01 12:00:01")
  = formatLogMessage "{t} {m} {x}"
      (mkLogMessage INFO "hello" "a.cpp" 10 "2024-01-01 12:00:00").
Proof.
  refine (proj2 (rendered_line_has_no_placeholder "{t} {m} {x}"
                   (mkLogMessage INFO "hello" "a.cpp" 10 "2024-01-01 12:00:00")
                   (mkLogMessage ERROR_ "other" "b.cpp" 20 "2024-01-01 12:00:01")
                   _ _ _)); reflexivity.
Defined.

(** ** The worker and the destructor *)

(** [workerFunc] leaves the loop of lines 258-271 only when the
    destructor has set the flag: in every state of every run in which the
    worker is at the final sweep or has returned, the destructor has
    begun, and the flag is set exactly when it has. *)
Theorem worker_leaves_only_after_signal (now : tm) (w : World) (s : System) :
  reachable now w s →
  exitFlag (logger s) = signalled (owner s)
  ∧ (worker s = AtFinalLock ∨ worker s = FinalDrain ∨ worker s = Exited →
     owner s ≠ Live).
Proof.
  intros Hreach.
  destruct (reachable_invariant now w s Hreach) as [_ Hf _ Hfin _ _].
  split; [done|]. intros Hpc Ho. specialize (Hfin Hpc).
  by rewrite Hf, Ho in Hfin.
Qed.

Lemma worker_leaves_only_after_signal_witness : owner reinit_final ≠ Live.
Proof.
  refine (proj2 (worker_leaves_only_after_signal noon empty_world reinit_final
                   reinit_final_reachable) _).
  right. right. reflexivity.
Defined.
